(** * A K&R-style next-fit pool allocator: model and properties

    Shallow embedding of [allocator.c] / [allocator.h].

    Modelling conventions.
    - The platform is LP64: [size_t] and [uintptr_t] are 64-bit unsigned,
      [sizeof(FreeNode_t) = 16] (one [size_t] and one pointer, the flexible
      array member adds nothing), [alignof(size_t) = 8], and
      [uint_fast8_t] is an 8-bit unsigned integer.
    - Unsigned integer arithmetic wraps; the wrap is written out with
      [wrap] (64 bits) and [wrap8] (8 bits).
    - Pointers are addresses in [Z]; [NULL] is [0].  Pointer arithmetic on
      [FreeNode_t *] scales by [UNITSZ] and is not wrapped (it is only
      defined inside an object in C).
    - Memory is split by field: [nunits] and [nxt] map the address of a
      header to the value of that field, [bytes] maps a byte address to the
      payload byte stored there.  The split agrees with the one memory of
      the C program as long as headers sit at aligned addresses of blocks
      that do not overlap and payload writes stay inside payloads; the
      theorems about calls that write to more than one block assume a
      well-formed free list and live blocks that lie apart from it.
    - The spinlock protects a sequential critical section and is not
      modelled; every operation is a state transformer.
    - The two loops ([allocator_alloc], [allocator_free]) take fuel and
      return [None] when it runs out. *)

From Stdlib Require Import ZArith List Lia Bool.
From Stdlib Require Import Permutation.
Import ListNotations.
Open Scope Z_scope.

(** ** Platform constants and integer types *)

Definition SIZE_MAX : Z := 2 ^ 64 - 1.
Definition wrap (x : Z) : Z := x mod 2 ^ 64.
Definition wrap8 (x : Z) : Z := x mod 2 ^ 8.

(** [enum {UNITSZ = sizeof(FreeNode_t)}] *)
Definition UNITSZ : Z := 16.
(** [alignof(size_t)] *)
Definition ALIGNOF_SIZE_T : Z := 8.

Definition NULL : Z := 0.

(** ** Memory and allocator state *)

Record state : Type := mkState {
  a_p    : Z;        (* allocator_t.p, the cursor into the free list *)
  nunits : Z -> Z;   (* FreeNode_t.nunits of the header at an address *)
  nxt    : Z -> Z;   (* FreeNode_t.nxt of the header at an address *)
  bytes  : Z -> Z    (* payload bytes *)
}.

Definition upd (f : Z -> Z) (a v : Z) : Z -> Z :=
  fun x => if x =? a then v else f x.

Definition set_p (s : state) (c : Z) : state :=
  mkState c (nunits s) (nxt s) (bytes s).
Definition set_nunits (s : state) (a v : Z) : state :=
  mkState (a_p s) (upd (nunits s) a v) (nxt s) (bytes s).
Definition set_nxt (s : state) (a v : Z) : state :=
  mkState (a_p s) (nunits s) (upd (nxt s) a v) (bytes s).
Definition set_bytes (s : state) (b : Z -> Z) : state :=
  mkState (a_p s) (nunits s) (nxt s) b.

(** [ALLOCATOR_INIT]: no free list; memory holds whatever it holds. *)
Definition ALLOCATOR_INIT (nu nx by_ : Z -> Z) : state :=
  mkState NULL nu nx by_.

(** ** aln_offset *)

Definition aln_offset (base aln : Z) : Z :=
  wrap8 (if negb (base mod aln =? 0) then aln - base mod aln else 0).

(** ** allocator_alloc *)

(** The [for (prv = a->p, cur = prv->nxt ;; prv = cur, cur = cur->nxt)] loop.
    The result is the state on leaving the loop and the value of [res]. *)
Fixpoint alloc_loop (fuel : nat) (s : state) (need prv cur : Z)
  : option (state * Z) :=
  match fuel with
  | O => None
  | S fuel' =>
      if need <=? nunits s cur then
        if nunits s cur =? need then
          if negb (nxt s prv =? nxt s cur) then
            Some (set_p (set_nxt s prv (nxt s cur)) prv, cur + UNITSZ)
          else
            Some (set_p s NULL, cur + UNITSZ)
        else
          let rest := wrap (nunits s cur - need) in
          let s1 := set_nunits s cur rest in
          let cur' := cur + rest * UNITSZ in
          let s2 := set_nunits s1 cur' need in
          Some (set_p s2 prv, cur' + UNITSZ)
      else if cur =? a_p s then Some (s, NULL)
      else alloc_loop fuel' s need cur (nxt s cur)
  end.

(** The unit count of a request: [(nbytes+inc)/UNITSZ + 1]. *)
Definition units_needed (nbytes : Z) : Z :=
  wrap (wrap (nbytes + aln_offset nbytes UNITSZ) / UNITSZ + 1).

Definition allocator_alloc (fuel : nat) (s : state) (nbytes : Z)
  : option (state * Z) :=
  let inc := aln_offset nbytes UNITSZ in
  if (nbytes =? 0) || (wrap (SIZE_MAX - inc) <? nbytes) then Some (s, NULL)
  else if a_p s =? NULL then Some (s, NULL)
  else alloc_loop fuel s (units_needed nbytes) (a_p s) (nxt s (a_p s)).

(** ** allocator_free *)

(** The insertion-point walk
    [for (cur = a->p; !(p > cur && p < cur->nxt); cur = cur->nxt)
       if (cur >= cur->nxt && (p > cur || p < cur->nxt)) break;] *)
Fixpoint free_walk (fuel : nat) (s : state) (p cur : Z) : option Z :=
  match fuel with
  | O => None
  | S fuel' =>
      if (cur <? p) && (p <? nxt s cur) then Some cur
      else if (nxt s cur <=? cur) && ((cur <? p) || (p <? nxt s cur))
      then Some cur
      else free_walk fuel' s p (nxt s cur)
  end.

(** Linking [p] after [cur], coalescing with [cur->nxt] and with [cur]. *)
Definition free_link (s : state) (p cur : Z) : state :=
  let s1 :=
    if p + nunits s p * UNITSZ =? nxt s cur then
      let sa := set_nunits s p (wrap (nunits s p + nunits s (nxt s cur))) in
      set_nxt sa p (nxt sa (nxt sa cur))
    else set_nxt s p (nxt s cur) in
  let s2 :=
    if cur + nunits s1 cur * UNITSZ =? p then
      let sb := set_nunits s1 cur (wrap (nunits s1 cur + nunits s1 p)) in
      set_nxt sb cur (nxt sb p)
    else set_nxt s1 cur p in
  set_p s2 cur.

Definition allocator_free (fuel : nat) (s : state) (ptr : Z) : option state :=
  if ptr =? NULL then Some s
  else
    let p := ptr - UNITSZ in
    if negb (a_p s =? NULL) then
      match free_walk fuel s p (a_p s) with
      | None => None
      | Some cur => Some (free_link s p cur)
      end
    else Some (set_nxt (set_p s p) p p).

(** ** allocator_add *)

Definition allocator_add (fuel : nat) (s : state) (p nbytes : Z)
  : option state :=
  let addr := p in
  let inc := aln_offset addr ALIGNOF_SIZE_T in
  let n := wrap (nbytes - inc) / UNITSZ in
  if (inc + UNITSZ <? nbytes) && negb (n =? 0) then
    let new := wrap (addr + inc) in
    allocator_free fuel (set_nunits s new n) (new + UNITSZ)
  else Some s.

(** ** allocator_allocsz *)

Definition allocator_allocsz (s : state) (p : Z) : Z :=
  if negb (p =? NULL) then wrap (wrap (nunits s (p - UNITSZ) - 1) * UNITSZ)
  else 0.

(** ** allocator_for_blocks *)

(** The [do { f(allocsz(cur+1)); cur = cur->nxt; } while (cur != a->p)]
    loop; the callback's arguments are collected in call order. *)
Fixpoint for_blocks_loop (fuel : nat) (s : state) (cur : Z)
  : option (list Z) :=
  match fuel with
  | O => None
  | S fuel' =>
      let arg := allocator_allocsz s (cur + UNITSZ) in
      let cur' := nxt s cur in
      if negb (cur' =? a_p s) then
        option_map (cons arg) (for_blocks_loop fuel' s cur')
      else Some [arg]
  end.

Definition allocator_for_blocks (fuel : nat) (s : state) : option (list Z) :=
  if negb (a_p s =? NULL) then for_blocks_loop fuel s (a_p s) else Some [].

(** ** allocator_realloc *)

(** [memcpy(dst, src, n)] on the payload bytes. *)
Definition memcpy (s : state) (dst src n : Z) : state :=
  set_bytes s (fun x =>
    if (dst <=? x) && (x <? dst + n) then bytes s (src + (x - dst))
    else bytes s x).

Definition allocator_realloc (fuel : nat) (s : state) (p nbytes : Z)
  : option (state * Z) :=
  if p =? NULL then allocator_alloc fuel s nbytes
  else if nbytes =? 0 then
    match allocator_free fuel s p with
    | None => None
    | Some s' => Some (s', NULL)
    end
  else if allocator_allocsz s p <? nbytes then
    match allocator_alloc fuel s nbytes with
    | None => None
    | Some (s1, res) =>
        if negb (res =? NULL) then
          let s2 := memcpy s1 res p (allocator_allocsz s1 p) in
          match allocator_free fuel s2 p with
          | None => None
          | Some s3 => Some (s3, res)
          end
        else Some (s1, res)
    end
  else Some (s, p).

(** ** Observing the free list *)

(** The nodes of the ring in [nxt] order starting at the cursor, each with
    its [nunits]; the traversal is the one of [allocator_for_blocks]. *)
Fixpoint ring_from (fuel : nat) (s : state) (cur : Z)
  : option (list (Z * Z)) :=
  match fuel with
  | O => None
  | S fuel' =>
      let node := (cur, nunits s cur) in
      if negb (nxt s cur =? a_p s) then
        option_map (cons node) (ring_from fuel' s (nxt s cur))
      else Some [node]
  end.

Definition free_list (fuel : nat) (s : state) : option (list (Z * Z)) :=
  if negb (a_p s =? NULL) then ring_from fuel s (a_p s) else Some [].

(** ** Blocks of the free list *)

(** [reach s x]: the header at [x] is on the free list, that is, it is met
    when following [nxt] from the cursor. *)
Inductive reach (s : state) : Z -> Prop :=
| reach_cursor : a_p s <> NULL -> reach s (a_p s)
| reach_next x : reach s x -> reach s (nxt s x).

(** The ring closes: [k >= 1] steps of [nxt] lead from the cursor back to
    the cursor. *)
Definition ring_closed (s : state) (k : nat) : Prop :=
  (1 <= k)%nat /\ Nat.iter k (nxt s) (a_p s) = a_p s.

(** A header at a usable address: non-null, aligned for [FreeNode_t], at
    least one unit long and ending inside the address space. *)
Definition block_ok (s : state) (x : Z) : Prop :=
  0 < x /\ x mod ALIGNOF_SIZE_T = 0 /\
  1 <= nunits s x /\ x + nunits s x * UNITSZ <= 2 ^ 64.

Definition unit_discipline (s : state) : Prop :=
  forall x, reach s x -> block_ok s x.

(** The iterations of the search loop of [allocator_alloc]:
    [alloc_walk s need prv cur] holds when the loop starts an iteration with
    these values of [prv] and [cur]. *)
Inductive alloc_walk (s : state) (need : Z) : Z -> Z -> Prop :=
| walk_first : alloc_walk s need (a_p s) (nxt s (a_p s))
| walk_next prv cur :
    alloc_walk s need prv cur ->
    nunits s cur < need -> cur <> a_p s ->
    alloc_walk s need cur (nxt s cur).

(** How an iteration that leaves the loop ends: no match at the cursor, an
    exact match that is unlinked, the last block taken whole, or a split. *)
Inductive alloc_exit (s : state) (need prv cur : Z) : state -> Z -> Prop :=
| exit_nomatch :
    nunits s cur < need -> cur = a_p s ->
    alloc_exit s need prv cur s NULL
| exit_unlink :
    nunits s cur = need -> nxt s prv <> nxt s cur ->
    alloc_exit s need prv cur
      (set_p (set_nxt s prv (nxt s cur)) prv) (cur + UNITSZ)
| exit_last :
    nunits s cur = need -> nxt s prv = nxt s cur ->
    alloc_exit s need prv cur (set_p s NULL) (cur + UNITSZ)
| exit_split :
    need < nunits s cur ->
    alloc_exit s need prv cur
      (set_p
         (set_nunits (set_nunits s cur (wrap (nunits s cur - need)))
            (cur + wrap (nunits s cur - need) * UNITSZ) need) prv)
      (cur + wrap (nunits s cur - need) * UNITSZ + UNITSZ).

(** ** Calls and call sequences *)

Inductive op : Type :=
| Add (p nbytes : Z)
| Alloc (nbytes : Z)
| Free (ptr : Z)
| Realloc (ptr nbytes : Z).

(** A call returns the new state and a pointer ([NULL] for the two [void]
    functions). *)
Definition run (fuel : nat) (s : state) (o : op) : option (state * Z) :=
  match o with
  | Add p n => option_map (fun s' => (s', NULL)) (allocator_add fuel s p n)
  | Alloc n => allocator_alloc fuel s n
  | Free ptr => option_map (fun s' => (s', NULL)) (allocator_free fuel s ptr)
  | Realloc ptr n => allocator_realloc fuel s ptr n
  end.

(** [alloc(nbytes)] repeated until it returns null, at most [k] times; the
    pointers obtained, latest first. *)
Fixpoint alloc_until_null (k fuel : nat) (s : state) (nbytes : Z)
  (got : list Z) : option (state * list Z) :=
  match k with
  | O => None
  | S k' =>
      match allocator_alloc fuel s nbytes with
      | None => None
      | Some (s', r) =>
          if r =? NULL then Some (s', got)
          else alloc_until_null k' fuel s' nbytes (r :: got)
      end
  end.

Fixpoint free_all (fuel : nat) (s : state) (ptrs : list Z) : option state :=
  match ptrs with
  | [] => Some s
  | p :: ptrs' =>
      match allocator_free fuel s p with
      | None => None
      | Some s' => free_all fuel s' ptrs'
      end
  end.

(** ** The free-list properties of the specification, on an observed ring *)

(** A pair of neighbours [(a, n)], [(b, _)] that does not cross the wrap
    ([a < b]) leaves a gap: the first block ends strictly below the second. *)
Definition gap_ok (x y : Z * Z) : bool :=
  if fst x <? fst y then fst x + snd x * UNITSZ <? fst y else true.

Fixpoint no_touching_from (first : Z * Z) (l : list (Z * Z)) : bool :=
  match l with
  | [] => true
  | [x] => gap_ok x first
  | x :: ((y :: _) as l') => gap_ok x y && no_touching_from first l'
  end.

Definition no_touching (l : list (Z * Z)) : bool :=
  match l with
  | [] => true
  | x :: _ => no_touching_from x l
  end.

(** ** Sample runs *)

Definition zero_mem : Z -> Z := fun _ => 0.

Definition state_of (o : option state) : state :=
  match o with
  | Some s => s
  | None => ALLOCATOR_INIT zero_mem zero_mem zero_mem
  end.

Definition result_of (o : option (state * Z)) : state * Z :=
  match o with
  | Some x => x
  | None => (ALLOCATOR_INIT zero_mem zero_mem zero_mem, NULL)
  end.

(** A fresh allocator over zeroed memory, seeded with [units] units at
    [base]. *)
Definition seeded (base units : Z) : state :=
  state_of
    (allocator_add 1 (ALLOCATOR_INIT zero_mem zero_mem zero_mem)
       base (units * UNITSZ)).

(** The first [alloc(1)] on ten seeded units: resulting state and pointer. *)
Definition first_alloc : state * Z :=
  result_of (allocator_alloc 1 (seeded 4096 10) 1).

(** Four seeded units, two allocations [a] then [b], then [free(a)] and
    [free(b)]: the second free gives back the block just below a one-node
    free list. *)
Definition free_below_single : option state :=
  match allocator_alloc 1 (seeded 4096 4) 1 with
  | Some (s1, a) =>
      match allocator_alloc 1 s1 1 with
      | Some (s2, b) =>
          match allocator_free 1 s2 a with
          | Some s3 => allocator_free 1 s3 b
          | None => None
          end
      | None => None
      end
  | None => None
  end.

(** ** The free list as an address-ordered ring *)

(** [path s x l y]: following [nxt] from [x] visits exactly the nodes of
    [l], the first being [x], and then arrives at [y]. *)
Fixpoint path (s : state) (x : Z) (l : list Z) (y : Z) : Prop :=
  match l with
  | [] => x = y
  | a :: l' => a = x /\ path s (nxt s x) l' y
  end.

(** [ring s l]: [l] lists the nodes of the free list, each once, in [nxt]
    order from the cursor round to the cursor; the empty list stands for
    the null cursor. *)
Definition ring (s : state) (l : list Z) : Prop :=
  match l with
  | [] => a_p s = NULL
  | _ :: _ => a_p s <> NULL /\ NoDup l /\ path s (a_p s) l (a_p s)
  end.

(** Address order: a link that goes up leaves a gap after the block and
    jumps over no node; a link that does not go up leads from the highest
    node to the lowest. *)
Definition in_order (s : state) (l : list Z) : Prop :=
  forall x y, In x l -> In y l ->
    (x < nxt s x ->
     x + nunits s x * UNITSZ < nxt s x /\ (y <= x \/ nxt s x <= y)) /\
    (nxt s x <= x -> nxt s x <= y <= x).

Definition well_formed (s : state) (l : list Z) : Prop :=
  ring s l /\ (forall x, In x l -> block_ok s x) /\ in_order s l.

(** The bytes and the units held by the free list. *)
Definition covered (s : state) (l : list Z) (a : Z) : Prop :=
  exists x, In x l /\ x <= a < x + nunits s x * UNITSZ.

Definition total_units (s : state) (l : list Z) : Z :=
  fold_right Z.add 0 (map (nunits s) l).

(** The test that ends the insertion walk of [allocator_free] at [cur]. *)
Definition insertion_point (s : state) (p cur : Z) : Prop :=
  (cur < p /\ p < nxt s cur) \/
  (nxt s cur <= cur /\ (cur < p \/ p < nxt s cur)).

(** Five seeded units, [a = alloc(UNITSZ)], [b = alloc(UNITSZ)], [free(a)]:
    a free list of two blocks, one unit at 4096 and two units at 4144, with
    the block of [b] (header at 4112) live in between. *)
Definition two_free_blocks : state :=
  match allocator_alloc 1 (seeded 4096 5) UNITSZ with
  | Some (s1, a) =>
      match allocator_alloc 1 s1 UNITSZ with
      | Some (s2, b) => state_of (allocator_free 1 s2 a)
      | None => seeded 4096 5
      end
  | None => seeded 4096 5
  end.

(** The order condition of [in_order] for one link [x -> nxt x] and one
    node [y]. *)
Definition ord_pair (s : state) (x y : Z) : Prop :=
  (x < nxt s x ->
   x + nunits s x * UNITSZ < nxt s x /\ (y <= x \/ nxt s x <= y)) /\
  (nxt s x <= x -> nxt s x <= y <= x).

(** The block at [p] and the block at [x] do not overlap. *)
Definition apart (s : state) (p x : Z) : Prop :=
  x + nunits s x * UNITSZ <= p \/ p + nunits s p * UNITSZ <= x.

(** [alloc(UNITSZ)] on [two_free_blocks]: the two-unit block at 4144 is an
    exact match and is unlinked. *)
Definition alloc_from_two : state * Z :=
  result_of (allocator_alloc 2 two_free_blocks UNITSZ).

(** ** Runs of calls *)

(** A byte of the block whose header is at [b]. *)
Definition in_block (s : state) (b a : Z) : Prop :=
  b <= a < b + nunits s b * UNITSZ.

(** A byte of a block of the free list. *)
Definition is_free (s : state) (a : Z) : Prop :=
  exists x, reach s x /\ in_block s x a.

(** The case [allocator_free] misses: the free list is a single node and
    the block given back ends exactly where that node starts. *)
Definition missed_case (s : state) (b : Z) : Prop :=
  a_p s <> NULL /\ nxt s (a_p s) = a_p s /\
  b + nunits s b * UNITSZ = a_p s.

(** What the caller owes in state [s], [lv] being the payload pointers of
    the live blocks: a region handed to [add] is a real byte range that
    overlaps no free block and no live block; sizes are [size_t] values; a
    pointer passed to [free] or [realloc] is null or live.  In addition
    the call stays away from the case [allocator_free] misses, wherever it
    calls [allocator_free]: directly, at the end of [add], and in
    [realloc] for a size of zero or after a successful inner [alloc]. *)
Definition op_ok (s : state) (lv : list Z) (o : op) : Prop :=
  match o with
  | Add p n =>
      0 < p /\ 0 <= n /\ p + n <= 2 ^ 64 /\
      (forall a, p <= a < p + n ->
         ~ is_free s a /\ forall q, In q lv -> ~ in_block s (q - UNITSZ) a) /\
      (let inc := aln_offset p ALIGNOF_SIZE_T in
       let new := p + inc in
       inc + UNITSZ < n ->
       ~ missed_case (set_nunits s new ((n - inc) / UNITSZ)) new)
  | Alloc n => 0 <= n <= SIZE_MAX
  | Free ptr =>
      ptr = NULL \/ (In ptr lv /\ ~ missed_case s (ptr - UNITSZ))
  | Realloc ptr n =>
      0 <= n <= SIZE_MAX /\
      (ptr = NULL \/
       (In ptr lv /\
        (n = 0 -> ~ missed_case s (ptr - UNITSZ)) /\
        (forall fuel s1 q,
           allocator_allocsz s ptr < n ->
           allocator_alloc fuel s n = Some (s1, q) -> q <> NULL ->
           ~ missed_case s1 (ptr - UNITSZ))))
  end.

(** The live pointers after a call that returned [r]. *)
Definition live_after (lv : list Z) (o : op) (r : Z) : list Z :=
  match o with
  | Add _ _ => lv
  | Alloc _ => if r =? NULL then lv else r :: lv
  | Free ptr => remove Z.eq_dec ptr lv
  | Realloc ptr n =>
      if ptr =? NULL then (if r =? NULL then lv else r :: lv)
      else if n =? 0 then remove Z.eq_dec ptr lv
      else if (r =? NULL) || (r =? ptr) then lv
      else r :: remove Z.eq_dec ptr lv
  end.

(** The states of the runs that start from [ALLOCATOR_INIT], each with
    the payload pointers of its live blocks. *)
Inductive reachable_state : state -> list Z -> Prop :=
| rs_init nu nx by_ : reachable_state (ALLOCATOR_INIT nu nx by_) []
| rs_step s lv o fuel s' r :
    reachable_state s lv -> op_ok s lv o ->
    run fuel s o = Some (s', r) ->
    reachable_state s' (live_after lv o r).

(** The invariant of a run: the free list is a well-formed ring; every
    live block is usable, holds no free byte and no byte of another live
    block. *)
Definition inv (s : state) (l lv : list Z) : Prop :=
  well_formed s l /\ NoDup lv /\
  (forall p, In p lv ->
     block_ok s (p - UNITSZ) /\
     forall a, in_block s (p - UNITSZ) a -> ~ covered s l a) /\
  (forall p q, In p lv -> In q lv -> p <> q ->
     forall a, in_block s (p - UNITSZ) a -> ~ in_block s (q - UNITSZ) a).

(** Five seeded units and two allocations of [UNITSZ] bytes: the state
    from which [two_free_blocks] is reached by one [free]. *)
Definition two_allocs : state :=
  fst (result_of
         (allocator_alloc 1
            (fst (result_of (allocator_alloc 1 (seeded 4096 5) UNITSZ)))
            UNITSZ)).

(** * Properties *)

(** ** Integer helpers *)

Lemma wrap_small x : 0 <= x < 2 ^ 64 -> wrap x = x.
Proof. intros H. unfold wrap. now apply Z.mod_small. Qed.

Lemma wrap_range x : 0 <= wrap x < 2 ^ 64.
Proof. unfold wrap. apply Z.mod_pos_bound. lia. Qed.

Lemma aln_offset_spec base aln :
  0 < aln <= 256 ->
  0 <= aln_offset base aln < aln /\ (base + aln_offset base aln) mod aln = 0.
Proof.
  intros Ha. unfold aln_offset, wrap8.
  pose proof (Z.mod_pos_bound base aln ltac:(lia)) as Hb.
  destruct (Z.eqb_spec (base mod aln) 0) as [E | E]; cbn [negb].
  - rewrite Z.mod_0_l by lia. split; [lia |]. now rewrite Z.add_0_r.
  - rewrite Z.mod_small by lia. split; [lia |].
    replace (base + (aln - base mod aln)) with (base - base mod aln + 1 * aln)
      by lia.
    rewrite Z.mod_add by lia.
    rewrite (Z.div_mod base aln) at 1 by lia.
    replace (aln * (base / aln) + base mod aln - base mod aln)
      with ((base / aln) * aln) by lia.
    apply Z.mod_mul. lia.
Qed.

Lemma aln_offset_aligned base aln :
  0 < aln <= 256 -> base mod aln = 0 -> aln_offset base aln = 0.
Proof.
  intros Ha E. unfold aln_offset, wrap8. rewrite E. reflexivity.
Qed.

(** A request that passes the overflow test is rounded up to whole units
    without wrapping. *)
Lemma units_needed_spec n :
  0 < n -> n + aln_offset n UNITSZ <= SIZE_MAX ->
  1 <= units_needed n - 1 /\ units_needed n < 2 ^ 61 /\
  (units_needed n - 1) * UNITSZ = n + aln_offset n UNITSZ.
Proof.
  intros Hn Hov. unfold units_needed.
  destruct (aln_offset_spec n UNITSZ) as [Hi Hm]; [unfold UNITSZ; lia |].
  set (inc := aln_offset n UNITSZ) in *.
  unfold SIZE_MAX, UNITSZ in *.
  rewrite (wrap_small (n + inc)) by lia.
  pose proof (Z.div_mod (n + inc) 16 ltac:(lia)) as Hd.
  rewrite Hm in Hd.
  assert (0 <= (n + inc) / 16 < 2 ^ 60) by lia.
  rewrite wrap_small by lia. lia.
Qed.

Lemma units_needed_pos n : 1 <= units_needed n < 2 ^ 64.
Proof.
  unfold units_needed.
  pose proof (wrap_range (n + aln_offset n UNITSZ)) as Hw.
  assert (0 <= wrap (n + aln_offset n UNITSZ) / UNITSZ < 2 ^ 60).
  { unfold UNITSZ in *. split.
    - apply Z.div_pos; lia.
    - apply Z.div_lt_upper_bound; lia. }
  rewrite wrap_small; lia.
Qed.

(** The size test of [allocator_alloc]. *)
Lemma alloc_size_test n :
  0 <= n ->
  (n =? 0) || (wrap (SIZE_MAX - aln_offset n UNITSZ) <? n) = false <->
  0 < n /\ n + aln_offset n UNITSZ <= SIZE_MAX.
Proof.
  intros Hn.
  destruct (aln_offset_spec n UNITSZ) as [Hi _]; [unfold UNITSZ; lia |].
  set (inc := aln_offset n UNITSZ) in *. unfold UNITSZ, SIZE_MAX in *.
  rewrite wrap_small by lia.
  rewrite orb_false_iff, Z.eqb_neq, Z.ltb_ge. lia.
Qed.

(** ** Reading updated memory *)

(** Case analysis on an address comparison of the goal. *)
Ltac case_eqb :=
  match goal with
  | |- context [Z.eqb ?a ?b] => destruct (Z.eqb_spec a b)
  end.

(** Dropping the wrap of a sum that stays below [2^64]. *)
Ltac unwrap :=
  repeat match goal with
    | |- context [wrap ?x] => rewrite (wrap_small x) by lia
    | H : context [wrap ?x] |- _ => rewrite (wrap_small x) in H by lia
    end.

Lemma upd_same f a v : upd f a v a = v.
Proof. unfold upd. now rewrite Z.eqb_refl. Qed.

Lemma upd_other f a v x : x <> a -> upd f a v x = f x.
Proof. intros H. unfold upd. now apply Z.eqb_neq in H; rewrite H. Qed.

(** ** The search loop of allocator_alloc *)

Lemma alloc_loop_step fuel s need prv cur :
  nunits s cur < need -> cur <> a_p s ->
  alloc_loop (S fuel) s need prv cur = alloc_loop fuel s need cur (nxt s cur).
Proof.
  intros Hlt Hne. cbn [alloc_loop].
  apply Z.leb_gt in Hlt. apply Z.eqb_neq in Hne. now rewrite Hlt, Hne.
Qed.

Lemma alloc_loop_exit fuel s need prv cur s' r :
  alloc_exit s need prv cur s' r ->
  alloc_loop (S fuel) s need prv cur = Some (s', r).
Proof.
  intros H. cbn [alloc_loop]. destruct H as [Hlt Hc | He Hn | He Hn | Hgt].
  - apply Z.leb_gt in Hlt. apply Z.eqb_eq in Hc. now rewrite Hlt, Hc.
  - rewrite (proj2 (Z.leb_le _ _)) by lia.
    rewrite (proj2 (Z.eqb_eq _ _) He).
    now rewrite (proj2 (Z.eqb_neq _ _) Hn).
  - rewrite (proj2 (Z.leb_le _ _)) by lia.
    rewrite (proj2 (Z.eqb_eq _ _) He).
    now rewrite (proj2 (Z.eqb_eq _ _) Hn).
  - rewrite (proj2 (Z.leb_le _ _)) by lia.
    now rewrite (proj2 (Z.eqb_neq _ _)) by lia.
Qed.

(** Every result of the loop comes from an iteration it reaches. *)
Lemma alloc_loop_inv fuel s need : forall prv cur s' r,
  alloc_walk s need prv cur ->
  alloc_loop fuel s need prv cur = Some (s', r) ->
  exists prv' cur',
    alloc_walk s need prv' cur' /\ alloc_exit s need prv' cur' s' r.
Proof.
  induction fuel as [| fuel IH]; intros prv cur s' r Hw H; [discriminate |].
  cbn [alloc_loop] in H.
  destruct (Z.leb_spec need (nunits s cur)) as [Hle | Hlt].
  - exists prv, cur. split; [assumption |].
    destruct (Z.eqb_spec (nunits s cur) need) as [He | Hne].
    + destruct (Z.eqb_spec (nxt s prv) (nxt s cur)) as [Hn | Hn];
        cbn [negb] in H; injection H as <- <-.
      * now apply exit_last.
      * now apply exit_unlink.
    + injection H as <- <-. apply exit_split. lia.
  - destruct (Z.eqb_spec cur (a_p s)) as [Hc | Hc].
    + injection H as <- <-. exists prv, cur. split; [assumption |].
      now apply exit_nomatch.
    + apply (IH cur (nxt s cur)); [| assumption].
      now apply walk_next with (prv := prv).
Qed.

(** The loop reaches every iteration of the walk, given fuel. *)
Lemma alloc_walk_loop s need prv cur :
  alloc_walk s need prv cur ->
  exists k : nat, forall fuel,
    alloc_loop (k + fuel) s need (a_p s) (nxt s (a_p s)) =
    alloc_loop fuel s need prv cur.
Proof.
  induction 1 as [| prv cur Hw [k IH] Hlt Hne].
  - exists 0%nat. reflexivity.
  - exists (S k). intros fuel.
    replace (S k + fuel)%nat with (k + S fuel)%nat by lia.
    rewrite IH. now apply alloc_loop_step.
Qed.

Lemma alloc_walk_reach s need prv cur :
  a_p s <> NULL -> alloc_walk s need prv cur -> reach s prv /\ reach s cur.
Proof.
  intros Hp. induction 1 as [| prv cur Hw [IH1 IH2] Hlt Hne].
  - split; [now apply reach_cursor | apply reach_next; now apply reach_cursor].
  - split; [assumption | now apply reach_next].
Qed.

(** What [allocator_alloc] returns, in one statement: either the request
    is refused before the loop, or the loop exits from an iteration of the
    walk. *)
Lemma allocator_alloc_inv fuel s n s' r :
  0 <= n ->
  allocator_alloc fuel s n = Some (s', r) ->
  (s' = s /\ r = NULL /\
   (n = 0 \/ SIZE_MAX < n + aln_offset n UNITSZ \/ a_p s = NULL)) \/
  (0 < n /\ n + aln_offset n UNITSZ <= SIZE_MAX /\ a_p s <> NULL /\
   exists prv cur,
     alloc_walk s (units_needed n) prv cur /\
     alloc_exit s (units_needed n) prv cur s' r).
Proof.
  intros Hn H. unfold allocator_alloc in H.
  destruct ((n =? 0) || (wrap (SIZE_MAX - aln_offset n UNITSZ) <? n))
    eqn:Hsz.
  - injection H as <- <-. left. repeat split.
    destruct (Z.eq_dec n 0) as [-> | Hn0]; [now left |].
    right; left.
    destruct (Z_lt_le_dec SIZE_MAX (n + aln_offset n UNITSZ)) as [Hov | Hov];
      [assumption |].
    assert ((n =? 0) || (wrap (SIZE_MAX - aln_offset n UNITSZ) <? n) = false)
      as Hf by (apply alloc_size_test; lia).
    congruence.
  - apply alloc_size_test in Hsz; [| assumption]. destruct Hsz as [Hpos Hov].
    destruct (Z.eqb_spec (a_p s) NULL) as [Hp | Hp].
    + injection H as <- <-. left. repeat split. now right; right.
    + right. repeat split; try assumption.
      apply alloc_loop_inv in H; [assumption | apply walk_first].
Qed.

(** A successful allocation leaves a header holding the unit count of the
    request just below the returned pointer. *)
Lemma alloc_exit_header s need prv cur s' r :
  alloc_exit s need prv cur s' r -> r <> NULL ->
  nunits s' (r - UNITSZ) = need.
Proof.
  intros H Hr. destruct H as [Hlt Hc | He Hn | He Hn | Hgt].
  - contradiction.
  - cbn [nunits set_p set_nxt].
    now replace (cur + UNITSZ - UNITSZ) with cur by lia.
  - cbn [nunits set_p]. now replace (cur + UNITSZ - UNITSZ) with cur by lia.
  - cbn [nunits set_p set_nunits].
    match goal with |- upd _ ?a _ ?b = _ => replace b with a by lia end.
    apply upd_same.
Qed.

(** A failed allocation changes nothing. *)
Lemma alloc_exit_null s need prv cur s' r :
  alloc_exit s need prv cur s' r ->
  (forall x, reach s x -> 0 < x) -> a_p s <> NULL ->
  alloc_walk s need prv cur ->
  r = NULL -> s' = s /\ nunits s cur < need /\ cur = a_p s.
Proof.
  intros H Hpos Hp Hw Hr.
  destruct (alloc_walk_reach _ _ _ _ Hp Hw) as [_ Hc]. apply Hpos in Hc.
  pose proof (wrap_range (nunits s cur - need)).
  destruct H as [Hlt Hcur | He Hn | He Hn | Hgt];
    unfold NULL, UNITSZ in *; try lia.
  auto.
Qed.

(** ** Size query after allocation *)

Lemma allocsz_of_units s r n :
  0 < n -> n + aln_offset n UNITSZ <= SIZE_MAX -> r <> NULL ->
  nunits s (r - UNITSZ) = units_needed n ->
  allocator_allocsz s r = n + aln_offset n UNITSZ.
Proof.
  intros Hn Hov Hr Hh. unfold allocator_allocsz.
  rewrite (proj2 (Z.eqb_neq _ _) Hr). cbn [negb]. rewrite Hh.
  destruct (units_needed_spec n Hn Hov) as (H1 & H2 & H3).
  rewrite (wrap_small (units_needed n - 1)) by lia.
  rewrite H3. apply wrap_small.
  destruct (aln_offset_spec n UNITSZ) as [Hi _]; [unfold UNITSZ; lia |].
  unfold SIZE_MAX in Hov. lia.
Qed.

(** C6: for every [n > 0] for which [alloc(n)] succeeds, [allocsz] of the
    returned pointer is at least [n] and strictly less than
    [n + 2*UNITSZ]. *)
Theorem alloc_allocsz_bounds fuel s n s' r :
  0 < n ->
  allocator_alloc fuel s n = Some (s', r) -> r <> NULL ->
  n <= allocator_allocsz s' r < n + 2 * UNITSZ.
Proof.
  intros Hn H Hr.
  apply allocator_alloc_inv in H; [| lia].
  destruct H as [(_ & Hnull & _) | (_ & Hov & Hp & prv & cur & Hw & Hex)];
    [contradiction |].
  rewrite (allocsz_of_units s' r n Hn Hov Hr
             (alloc_exit_header _ _ _ _ _ _ Hex Hr)).
  destruct (aln_offset_spec n UNITSZ) as [Hi _]; unfold UNITSZ in *; lia.
Qed.

Lemma alloc_allocsz_bounds_witness :
  1 <= allocator_allocsz (fst first_alloc) (snd first_alloc) < 1 + 2 * UNITSZ.
Proof.
  apply (alloc_allocsz_bounds 1%nat (seeded 4096 10) 1
           (fst first_alloc) (snd first_alloc)).
  - lia.
  - reflexivity.
  - vm_compute. discriminate.
Defined.

(** ** Reallocation in place *)

Lemma realloc_in_place fuel s p n :
  0 < n -> n <= allocator_allocsz s p ->
  allocator_realloc fuel s p n = Some (s, p).
Proof.
  intros Hn Hle. unfold allocator_realloc.
  destruct (Z.eqb_spec p NULL) as [-> | Hp].
  - unfold allocator_allocsz in Hle. cbn in Hle. lia.
  - rewrite (proj2 (Z.eqb_neq n 0)) by lia.
    now rewrite (proj2 (Z.ltb_ge _ _)) by lia.
Qed.

(** C7, as stated, fails for [n = 0]: the request [realloc(p, 0)] frees the
    block and returns null although [allocsz(p) >= 0]. *)
Lemma realloc_no_shrink_counterexample :
  snd first_alloc = 4240 /\
  0 <= allocator_allocsz (fst first_alloc) (snd first_alloc) /\
  option_map snd (allocator_realloc 1 (fst first_alloc) (snd first_alloc) 0)
  = Some NULL /\
  NULL <> snd first_alloc.
Proof. vm_compute. repeat split; congruence. Qed.

(** C7 (amended): for every pointer [p] and every size [n > 0] with
    [allocsz(p) >= n], [realloc(p, n)] returns [p] itself. *)
Theorem realloc_no_shrink fuel s p n :
  0 < n -> allocator_allocsz s p >= n ->
  option_map snd (allocator_realloc fuel s p n) = Some p.
Proof.
  intros Hn Hge. rewrite realloc_in_place by lia. reflexivity.
Qed.

Lemma realloc_no_shrink_witness :
  option_map snd
    (allocator_realloc 0 (fst first_alloc) (snd first_alloc) 16) =
  Some (snd first_alloc).
Proof.
  apply (realloc_no_shrink 0%nat (fst first_alloc) (snd first_alloc) 16).
  - lia.
  - vm_compute. discriminate.
Defined.

(** C10: for every state, every pointer [p] and every [n] with
    [0 < n <= allocsz(p)], [realloc(a, p, n)] leaves the whole state, and so
    the free list and the cursor, unchanged. *)
Theorem realloc_in_place_frame fuel s p n :
  0 < n <= allocator_allocsz s p ->
  exists r, allocator_realloc fuel s p n = Some (s, r).
Proof.
  intros [Hn Hle]. exists p. now apply realloc_in_place.
Qed.

Lemma realloc_in_place_frame_witness :
  exists r,
    allocator_realloc 0 (fst first_alloc) (snd first_alloc) 7 =
    Some (fst first_alloc, r).
Proof.
  apply (realloc_in_place_frame 0%nat (fst first_alloc) (snd first_alloc) 7).
  vm_compute. split; [reflexivity | discriminate].
Defined.

(** ** Walking the ring *)

Lemma reach_iter s k :
  a_p s <> NULL -> reach s (Nat.iter k (nxt s) (a_p s)).
Proof.
  intros Hp. induction k as [| k IH]; cbn [Nat.iter].
  - now apply reach_cursor.
  - now apply reach_next.
Qed.

Lemma reach_nonempty s x : reach s x -> a_p s <> NULL.
Proof. induction 1; assumption. Qed.

(** On a one-node ring only the cursor is on the free list. *)
Lemma reach_singleton s x :
  nxt s (a_p s) = a_p s -> reach s x -> x = a_p s.
Proof.
  intros Hself. induction 1 as [Hp | x Hx IH]; [reflexivity |].
  now rewrite IH.
Qed.

(** On a closed ring the search loop ends within one lap. *)
Lemma alloc_loop_terminates s need : forall d i fuel prv,
  Nat.iter (i + d) (nxt s) (a_p s) = a_p s -> (d < fuel)%nat ->
  exists res,
    alloc_loop fuel s need prv (Nat.iter i (nxt s) (a_p s)) = Some res.
Proof.
  induction d as [| d IH]; intros i fuel prv Hcl Hf;
    (destruct fuel as [| fuel]; [lia |]); cbn [alloc_loop];
    set (cur := Nat.iter i (nxt s) (a_p s)) in *;
    destruct (need <=? nunits s cur).
  - destruct (nunits s cur =? need); [destruct (negb _) |];
      eexists; reflexivity.
  - replace (i + 0)%nat with i in Hcl by lia. fold cur in Hcl.
    rewrite Hcl, Z.eqb_refl. eexists; reflexivity.
  - destruct (nunits s cur =? need); [destruct (negb _) |];
      eexists; reflexivity.
  - destruct (cur =? a_p s); [eexists; reflexivity |].
    apply (IH (S i) fuel cur); [| lia].
    now replace (S i + d)%nat with (i + S d)%nat by lia.
Qed.

(** When the walk comes back to the cursor without a match, no block of
    the free list is large enough. *)
Lemma alloc_walk_covers s need prv cur :
  alloc_walk s need prv cur ->
  exists S : Z -> Prop,
    S cur /\ S (nxt s (a_p s)) /\
    forall v, S v -> v = cur \/ (nunits s v < need /\ S (nxt s v)).
Proof.
  induction 1 as [| prv cur Hw (S & Hcur & Hfirst & Hcl) Hlt Hne].
  - exists (fun v => v = nxt s (a_p s)). auto.
  - exists (fun v => S v \/ v = nxt s cur). repeat split; auto.
    intros v [Hv | ->]; [| now left].
    right. destruct (Hcl v Hv) as [-> | [Hlt' Hn]]; auto.
Qed.

Lemma alloc_nomatch_all_small s need prv :
  alloc_walk s need prv (a_p s) -> nunits s (a_p s) < need ->
  forall x, reach s x -> nunits s x < need.
Proof.
  intros Hw Hlt.
  destruct (alloc_walk_covers _ _ _ _ Hw) as (S & Hcur & Hfirst & Hcl).
  assert (forall x, reach s x -> S x) as Hin.
  { induction 1 as [Hp | x Hx IH]; [assumption |].
    destruct (Hcl x IH) as [-> | [_ Hn]]; assumption. }
  intros x Hx. destruct (Hcl x (Hin x Hx)) as [-> | [Hs _]]; assumption.
Qed.

(** C9: [alloc] returns null exactly when the request is invalid or
    unsatisfiable -- size zero, overflow of the rounded size, empty free
    list, or no block of the free list with enough units -- and in the two
    invalid-size cases the state is unchanged.  The free list is a closed
    ring of non-null headers, and the loop is given fuel for one lap. *)
Theorem alloc_null_iff s n k fuel :
  0 <= n <= SIZE_MAX ->
  (a_p s <> NULL -> ring_closed s k /\ forall x, reach s x -> 0 < x) ->
  (k <= fuel)%nat ->
  exists s' r,
    allocator_alloc fuel s n = Some (s', r) /\
    (r = NULL <->
       n = 0 \/ SIZE_MAX < n + aln_offset n UNITSZ \/ a_p s = NULL \/
       forall x, reach s x -> nunits s x < units_needed n) /\
    (n = 0 \/ SIZE_MAX < n + aln_offset n UNITSZ -> s' = s).
Proof.
  intros Hn Hring Hfuel.
  assert (exists res, allocator_alloc fuel s n = Some res) as [[s' r] Hres].
  { unfold allocator_alloc.
    destruct ((n =? 0) || _); [eexists; reflexivity |].
    destruct (Z.eqb_spec (a_p s) NULL) as [Hp | Hp]; [eexists; reflexivity |].
    destruct (Hring Hp) as [[Hk Hcl] _].
    apply (alloc_loop_terminates s _ (k - 1) 1 fuel (a_p s)); [| lia].
    now replace (1 + (k - 1))%nat with k by lia. }
  exists s', r. split; [assumption |].
  apply allocator_alloc_inv in Hres; [| lia].
  destruct Hres
    as [(-> & -> & Hwhy) | (Hpos & Hov & Hp & prv & cur & Hw & Hex)].
  - split; [| reflexivity]. split; [| reflexivity].
    intros _. destruct Hwhy as [H | [H | H]]; auto.
  - destruct (Hring Hp) as [_ Hnn]. split; [| intros [H | H]; lia].
    split.
    + intros Hr.
      destruct (alloc_exit_null _ _ _ _ _ _ Hex Hnn Hp Hw Hr) as (_ & Hlt & ->).
      right; right; right. now apply alloc_nomatch_all_small with (prv := prv).
    + intros [H | [H | [H | Hsmall]]]; try lia; try contradiction.
      destruct (alloc_walk_reach _ _ _ _ Hp Hw) as [_ Hc].
      apply Hsmall in Hc.
      destruct Hex as [Hlt Hcur | He Hne | He Hne | Hgt];
        [reflexivity | lia ..].
Qed.

(** Seeding an empty allocator with an aligned region. *)
Lemma add_fresh fuel s base nbytes :
  a_p s = NULL -> 0 < base -> base mod ALIGNOF_SIZE_T = 0 ->
  UNITSZ < nbytes -> base + nbytes <= 2 ^ 64 ->
  allocator_add fuel s base nbytes =
  Some (set_nxt (set_p (set_nunits s base (nbytes / UNITSZ)) base) base base).
Proof.
  intros Hp Hb Ha Hn Hsz. unfold allocator_add.
  rewrite (aln_offset_aligned base ALIGNOF_SIZE_T)
    by (assumption || (unfold ALIGNOF_SIZE_T; lia)).
  rewrite Z.sub_0_r, Z.add_0_r, Z.add_0_l.
  unfold UNITSZ in *. rewrite !wrap_small by lia.
  rewrite (proj2 (Z.ltb_lt _ _) Hn).
  assert (1 <= nbytes / 16) by (apply Z.div_le_lower_bound; lia).
  rewrite (proj2 (Z.eqb_neq (nbytes / 16) 0)) by lia. cbn [andb negb].
  unfold allocator_free, NULL, UNITSZ in *.
  rewrite (proj2 (Z.eqb_neq (base + 16) 0)) by lia.
  cbn [a_p set_nunits]. rewrite Hp. cbn [Z.eqb negb].
  now replace (base + 16 - 16) with base by lia.
Qed.

Lemma alloc_null_iff_witness :
  exists s' r,
    allocator_alloc 1 (seeded 4096 10) 1 = Some (s', r) /\
    (r = NULL <->
       1 = 0 \/ SIZE_MAX < 1 + aln_offset 1 UNITSZ \/
       a_p (seeded 4096 10) = NULL \/
       forall x, reach (seeded 4096 10) x ->
                 nunits (seeded 4096 10) x < units_needed 1) /\
    (1 = 0 \/ SIZE_MAX < 1 + aln_offset 1 UNITSZ -> s' = seeded 4096 10).
Proof.
  apply (alloc_null_iff (seeded 4096 10) 1 1%nat 1%nat).
  - unfold SIZE_MAX. lia.
  - intros _. split.
    + split; [lia | reflexivity].
    + intros x Hx. apply reach_singleton in Hx; [| reflexivity].
      subst x. reflexivity.
  - lia.
Defined.

(** ** Splitting from the tail *)

Lemma allocator_alloc_loop fuel s n :
  0 < n -> n + aln_offset n UNITSZ <= SIZE_MAX -> a_p s <> NULL ->
  allocator_alloc fuel s n =
  alloc_loop fuel s (units_needed n) (a_p s) (nxt s (a_p s)).
Proof.
  intros Hn Hov Hp. unfold allocator_alloc.
  rewrite (proj2 (alloc_size_test n ltac:(lia))) by lia.
  now rewrite (proj2 (Z.eqb_neq _ _) Hp).
Qed.

Lemma alloc_walk_exit s n prv cur s' r :
  0 < n -> n + aln_offset n UNITSZ <= SIZE_MAX -> a_p s <> NULL ->
  alloc_walk s (units_needed n) prv cur ->
  alloc_exit s (units_needed n) prv cur s' r ->
  exists k : nat, forall fuel, (k <= fuel)%nat ->
    allocator_alloc fuel s n = Some (s', r).
Proof.
  intros Hn Hov Hp Hw Hex.
  destruct (alloc_walk_loop _ _ _ _ Hw) as [k Hk].
  exists (S k). intros f Hf.
  rewrite allocator_alloc_loop by assumption.
  replace f with (k + S (f - S k))%nat by lia.
  rewrite Hk. now apply alloc_loop_exit.
Qed.

Lemma free_list_singleton fuel s :
  a_p s <> NULL -> nxt s (a_p s) = a_p s ->
  free_list (S fuel) s = Some [(a_p s, nunits s (a_p s))].
Proof.
  intros Hp Hself. unfold free_list.
  rewrite (proj2 (Z.eqb_neq _ _) Hp). cbn [negb ring_from].
  now rewrite Hself, Z.eqb_refl.
Qed.

Lemma units_needed_unit : units_needed UNITSZ = 2.
Proof. reflexivity. Qed.

Lemma units_needed_one : units_needed 1 = 2.
Proof. reflexivity. Qed.

(** C4: when the search loop of [alloc] arrives at a free block [cur] with
    more units than needed, the block is split from its high-address end:
    [cur] keeps its place and its links and loses [need] units, a header
    with [nunits = need] is written at the tail, the tail's payload is
    returned, no [nxt] field changes and the cursor becomes the
    predecessor.  On ten seeded units, [alloc(UNITSZ)] returns a payload in
    the upper half of the region and leaves the lower eight units free. *)
Theorem alloc_splits_from_tail :
  (forall s n prv cur,
     0 < n -> n + aln_offset n UNITSZ <= SIZE_MAX -> a_p s <> NULL ->
     alloc_walk s (units_needed n) prv cur ->
     units_needed n < nunits s cur < 2 ^ 64 ->
     let need := units_needed n in
     let rest := nunits s cur - need in
     let tail := cur + rest * UNITSZ in
     exists k : nat, forall fuel, (k <= fuel)%nat ->
     exists s',
       allocator_alloc fuel s n = Some (s', tail + UNITSZ) /\
       nunits s' cur = rest /\ nunits s' tail = need /\
       (forall x, x <> cur -> x <> tail -> nunits s' x = nunits s x) /\
       nxt s' = nxt s /\ a_p s' = prv /\
       cur < tail /\ tail + need * UNITSZ = cur + nunits s cur * UNITSZ) /\
  (forall base nu nx by_ fuel,
     0 < base -> base mod ALIGNOF_SIZE_T = 0 ->
     base + 10 * UNITSZ <= 2 ^ 64 -> (1 <= fuel)%nat ->
     exists s0 s1 p,
       allocator_add fuel (ALLOCATOR_INIT nu nx by_) base (10 * UNITSZ)
       = Some s0 /\
       allocator_alloc fuel s0 UNITSZ = Some (s1, p) /\
       base + 5 * UNITSZ <= p /\ p + UNITSZ <= base + 10 * UNITSZ /\
       free_list fuel s1 = Some [(base, 8)]).
Proof.
  split.
  - intros s n prv cur Hn Hov Hp Hw Hsz need rest tail.
    pose proof (units_needed_pos n) as Hneed. fold need in Hneed, Hsz, Hw.
    assert (wrap (nunits s cur - need) = rest) as Hrest
        by (apply wrap_small; unfold rest; lia).
    assert (alloc_exit s need prv cur
              (set_p (set_nunits (set_nunits s cur rest) tail need) prv)
              (tail + UNITSZ)) as Hex.
    { unfold tail. rewrite <- Hrest. apply exit_split. lia. }
    destruct (alloc_walk_exit s n prv cur _ _ Hn Hov Hp Hw Hex) as [k Hk].
    exists k. intros fuel Hf. eexists. split; [now apply Hk |].
    assert (cur < tail) by (unfold tail, rest, UNITSZ; lia).
    cbn [a_p nunits nxt set_p set_nunits]. repeat split.
    + rewrite upd_other by lia. apply upd_same.
    + apply upd_same.
    + intros x H1 H2. now rewrite !upd_other.
    + assumption.
    + unfold tail, rest. lia.
  - intros base nu nx by_ fuel Hb Ha Hsz Hf.
    destruct fuel as [| fuel]; [lia |].
    unfold UNITSZ in Hsz.
    rewrite add_fresh; try assumption; try reflexivity;
      [| unfold UNITSZ; lia ..].
    replace (10 * UNITSZ / UNITSZ) with 10 by reflexivity.
    eexists. eexists. eexists. split; [reflexivity |].
    rewrite allocator_alloc_loop;
      [| reflexivity | now vm_compute
       | cbn [a_p set_nxt set_p]; unfold NULL; lia].
    rewrite units_needed_unit.
    cbn [a_p nxt set_nxt set_p set_nunits]. rewrite upd_same.
    erewrite alloc_loop_exit.
    2:{ apply exit_split. cbn [nunits set_nxt set_p set_nunits].
        rewrite upd_same. lia. }
    cbn [nunits set_nxt set_p set_nunits]. rewrite upd_same.
    replace (wrap (10 - 2)) with 8 by reflexivity.
    split; [reflexivity |]. unfold UNITSZ. split; [lia |]. split; [lia |].
    rewrite free_list_singleton.
    + cbn [a_p nunits set_nxt set_p set_nunits].
      rewrite upd_other by lia. rewrite upd_same. reflexivity.
    + cbn [a_p set_p]. unfold NULL. lia.
    + cbn [a_p nxt set_nxt set_p set_nunits]. apply upd_same.
Qed.

(** ** Unit discipline *)

(** Induction on the blocks of the free list of a new state. *)
Lemma reach_sub (s' : state) (P : Z -> Prop) :
  (a_p s' <> NULL -> P (a_p s')) ->
  (forall x, P x -> P (nxt s' x)) ->
  forall x, reach s' x -> P x.
Proof. intros Hc Hn x. induction 1; auto. Qed.

(** Linking a usable block next to usable blocks keeps every usable header
    usable, whichever of the two merges happen. *)
Lemma free_link_block_ok s p cur :
  block_ok s p -> block_ok s cur -> block_ok s (nxt s cur) ->
  forall x, block_ok s x -> block_ok (free_link s p cur) x.
Proof.
  intros (Hp0 & Hpa & Hpn & Hpb) (Hc0 & Hca & Hcn & Hcb)
    (Hn0 & Hna & Hnn & Hnb) x (Hx0 & Hxa & Hxn & Hxb).
  unfold free_link, block_ok, UNITSZ in *.
  destruct (Z.eqb_spec (p + nunits s p * 16) (nxt s cur)) as [E1 | E1];
    cbv zeta; cbn [a_p nunits nxt set_p set_nxt set_nunits];
    match goal with |- context [Z.eqb ?a p] =>
      destruct (Z.eqb_spec a p) as [E2 | E2] end;
    cbn [a_p nunits nxt set_p set_nxt set_nunits];
    repeat split; try assumption; revert E2; unfold upd;
    repeat case_eqb; subst; unwrap; intros E2; unwrap; lia.
Qed.

(** Where [allocator_add] puts the header of a region it accepts. *)
Lemma add_header_place base nbytes :
  0 < base -> base + nbytes <= 2 ^ 64 ->
  aln_offset base ALIGNOF_SIZE_T + UNITSZ < nbytes ->
  let new := wrap (base + aln_offset base ALIGNOF_SIZE_T) in
  new = base + aln_offset base ALIGNOF_SIZE_T /\
  new mod ALIGNOF_SIZE_T = 0 /\ base <= new < base + ALIGNOF_SIZE_T /\
  new + wrap (nbytes - aln_offset base ALIGNOF_SIZE_T) / UNITSZ * UNITSZ
  <= base + nbytes.
Proof.
  intros Hb Hsz Hbig new.
  destruct (aln_offset_spec base ALIGNOF_SIZE_T) as [Hi Hm];
    [unfold ALIGNOF_SIZE_T; lia |].
  set (inc := aln_offset base ALIGNOF_SIZE_T) in *.
  unfold ALIGNOF_SIZE_T, UNITSZ in *.
  assert (new = base + inc) as -> by (apply wrap_small; lia).
  rewrite wrap_small by lia.
  pose proof (Z.mul_div_le (nbytes - inc) 16 ltac:(lia)).
  repeat split; try assumption; lia.
Qed.

(** C2, as stated, fails: [add] aligns the base to [alignof(size_t)], not to
    [UNITSZ]; a region at address 8 puts a header at 8 and its payload at
    24, neither of which is a multiple of [UNITSZ]. *)
Lemma unit_alignment_counterexample :
  free_list 1 (seeded 8 3) = Some [(8, 3)] /\
  a_p (seeded 8 3) mod UNITSZ <> 0 /\
  (a_p (seeded 8 3) + UNITSZ) mod UNITSZ <> 0.
Proof. vm_compute. repeat split; discriminate. Qed.

(** ** Scenarios, for any aligned region base and any memory contents *)

Lemma upd_eq f a v x : x = a -> upd f a v x = v.
Proof. intros ->. apply upd_same. Qed.

Lemma allocator_alloc_empty fuel s n :
  a_p s = NULL -> allocator_alloc fuel s n = Some (s, NULL).
Proof.
  intros H. unfold allocator_alloc. rewrite H, Z.eqb_refl.
  now destruct (_ || _).
Qed.

Lemma allocator_free_nonnull fuel s ptr :
  ptr <> NULL -> a_p s <> NULL ->
  allocator_free fuel s ptr =
  match free_walk fuel s (ptr - UNITSZ) (a_p s) with
  | Some cur => Some (free_link s (ptr - UNITSZ) cur)
  | None => None
  end.
Proof.
  intros H1 H2. unfold allocator_free.
  now rewrite (proj2 (Z.eqb_neq _ _) H1), (proj2 (Z.eqb_neq _ _) H2).
Qed.

Lemma allocator_free_empty fuel s ptr :
  ptr <> NULL -> a_p s = NULL ->
  allocator_free fuel s ptr =
  Some (set_nxt (set_p s (ptr - UNITSZ)) (ptr - UNITSZ) (ptr - UNITSZ)).
Proof.
  intros H1 H2. unfold allocator_free.
  now rewrite (proj2 (Z.eqb_neq _ _) H1), (proj2 (Z.eqb_eq _ _) H2).
Qed.

(** Symbolic execution: reads of updated memory and address comparisons
    are settled by linear arithmetic over the region base. *)
Ltac rd :=
  repeat match goal with
    | |- context [upd ?f ?a ?v ?x] =>
        first [ rewrite (upd_eq f a v x) by lia
              | rewrite (upd_other f a v x) by lia ]
    end.

Ltac zb :=
  repeat match goal with
    | |- context [Z.eqb ?a ?b] =>
        first [ rewrite (proj2 (Z.eqb_eq a b)) by lia
              | rewrite (proj2 (Z.eqb_neq a b)) by lia ]
    | |- context [Z.ltb ?a ?b] =>
        first [ rewrite (proj2 (Z.ltb_lt a b)) by lia
              | rewrite (proj2 (Z.ltb_ge a b)) by lia ]
    | |- context [Z.leb ?a ?b] =>
        first [ rewrite (proj2 (Z.leb_le a b)) by lia
              | rewrite (proj2 (Z.leb_gt a b)) by lia ]
    end.

Ltac proj := cbn [a_p nunits nxt bytes set_p set_nunits set_nxt set_bytes].

Ltac sym := repeat (proj; rd; zb; unwrap; cbn [negb andb orb]).

Ltac alloc_step :=
  rewrite allocator_alloc_loop;
    [| reflexivity | now vm_compute | proj; unfold NULL; lia];
  first [rewrite units_needed_unit | rewrite units_needed_one];
  cbn [alloc_loop]; unfold UNITSZ; sym.

Ltac free_step :=
  first
    [ rewrite allocator_free_empty; [| unfold NULL; lia | reflexivity]
    | rewrite allocator_free_nonnull;
        [| unfold NULL; lia | proj; unfold NULL, UNITSZ; lia];
      cbn [free_walk]; unfold UNITSZ; sym;
      unfold free_link, UNITSZ; cbv zeta; sym ].

(** C1, as stated, fails: every [alloc(1)] takes two units, header and
    payload, so ten units serve five requests, not nine. *)
Lemma exhaust_count_counterexample :
  option_map (fun r => length (snd r))
    (alloc_until_null 20 1 (seeded 4096 10) 1 []) = Some 5%nat /\
  5%nat <> 9%nat.
Proof. split; [vm_compute; reflexivity | discriminate]. Qed.

(** C1 (amended): for a fresh allocator seeded with one aligned region of
    exactly 10 units, repeatedly calling [alloc(1)] until it returns null
    yields exactly 5 successful allocations; after freeing all of them in
    reverse order, the free list is a singleton block of 10 units. *)
Theorem exhaust_then_refill base nu nx by_ fuel :
  0 < base -> base mod ALIGNOF_SIZE_T = 0 -> base + 10 * UNITSZ <= 2 ^ 64 ->
  (1 <= fuel)%nat ->
  exists s0 s1 ptrs s2,
    allocator_add fuel (ALLOCATOR_INIT nu nx by_) base (10 * UNITSZ)
    = Some s0 /\
    alloc_until_null 10 fuel s0 1 [] = Some (s1, ptrs) /\
    length ptrs = 5%nat /\
    free_all fuel s1 ptrs = Some s2 /\
    free_list fuel s2 = Some [(base, 10)].
Proof.
  intros Hb Ha Hsz Hf. destruct fuel as [| fuel]; [lia |].
  unfold UNITSZ in Hsz.
  do 4 eexists.
  split.
  { rewrite add_fresh; try assumption; try reflexivity; unfold UNITSZ; lia. }
  replace (10 * UNITSZ / UNITSZ) with 10 by reflexivity.
  split.
  { cbn [alloc_until_null].
    do 5 (alloc_step; unfold NULL; zb; fold NULL).
    rewrite allocator_alloc_empty by reflexivity.
    cbn. reflexivity. }
  split; [reflexivity |].
  split.
  { cbn [free_all]. do 5 free_step. reflexivity. }
  rewrite free_list_singleton;
    [| proj; unfold NULL; lia | proj; rd; reflexivity].
  proj. rd. repeat f_equal; lia.
Qed.

Lemma exhaust_then_refill_witness :
  exists s0 s1 ptrs s2,
    allocator_add 1 (ALLOCATOR_INIT zero_mem zero_mem zero_mem) 4096
      (10 * UNITSZ) = Some s0 /\
    alloc_until_null 10 1 s0 1 [] = Some (s1, ptrs) /\
    length ptrs = 5%nat /\
    free_all 1 s1 ptrs = Some s2 /\
    free_list 1 s2 = Some [(4096, 10)].
Proof.
  apply (exhaust_then_refill 4096 zero_mem zero_mem zero_mem 1%nat).
  - lia.
  - reflexivity.
  - unfold UNITSZ. lia.
  - lia.
Defined.

(** C5: for a fresh allocator seeded with a 5-unit region, after
    [a = alloc(UNITSZ)], [b = alloc(UNITSZ)], [c = alloc(UNITSZ)], then
    [free(a)], [free(c)], [free(b)] in that order, the free list is a
    singleton block covering the full seeded region; the last [free] merges
    [b] with the free block after it and with the one before it.  (The
    third request finds one unit left and returns null, so [free(c)] is the
    null no-op.) *)
Theorem coalesce_both_sides base nu nx by_ fuel :
  0 < base -> base mod ALIGNOF_SIZE_T = 0 -> base + 5 * UNITSZ <= 2 ^ 64 ->
  (1 <= fuel)%nat ->
  exists s0 s1 s2 s3 s4 s5 s6 a b c,
    allocator_add fuel (ALLOCATOR_INIT nu nx by_) base (5 * UNITSZ)
    = Some s0 /\
    allocator_alloc fuel s0 UNITSZ = Some (s1, a) /\
    allocator_alloc fuel s1 UNITSZ = Some (s2, b) /\
    allocator_alloc fuel s2 UNITSZ = Some (s3, c) /\
    allocator_free fuel s3 a = Some s4 /\
    allocator_free fuel s4 c = Some s5 /\
    allocator_free fuel s5 b = Some s6 /\
    free_list (S fuel) s5 = Some [(base, 1); (base + 3 * UNITSZ, 2)] /\
    free_list fuel s6 = Some [(base, 5)] /\
    a = base + 4 * UNITSZ /\ b = base + 2 * UNITSZ /\ c = NULL.
Proof.
  intros Hb Ha Hsz Hf. destruct fuel as [| fuel]; [lia |].
  unfold UNITSZ in Hsz.
  do 10 eexists.
  split.
  { rewrite add_fresh; try assumption; try reflexivity; unfold UNITSZ; lia. }
  replace (5 * UNITSZ / UNITSZ) with 5 by reflexivity.
  split; [alloc_step; reflexivity |].
  split; [alloc_step; reflexivity |].
  split; [alloc_step; reflexivity |].
  split; [free_step; reflexivity |].
  split; [reflexivity |].
  split; [free_step; reflexivity |].
  split.
  { unfold free_list. proj. unfold NULL, UNITSZ. zb.
    cbn [negb ring_from option_map]. sym. cbn [option_map].
    replace (5 - 2 - 2) with 1 by lia.
    replace (base + (5 - 2) * 16 + 16 - 16) with (base + 3 * 16) by lia.
    reflexivity. }
  split.
  { rewrite free_list_singleton;
      [| proj; unfold NULL; lia | proj; rd; reflexivity].
    proj. rd. repeat f_equal; lia. }
  unfold UNITSZ. repeat split; try reflexivity; lia.
Qed.

Lemma coalesce_both_sides_witness :
  exists s0 s1 s2 s3 s4 s5 s6 a b c,
    allocator_add 1 (ALLOCATOR_INIT zero_mem zero_mem zero_mem) 4096
      (5 * UNITSZ) = Some s0 /\
    allocator_alloc 1 s0 UNITSZ = Some (s1, a) /\
    allocator_alloc 1 s1 UNITSZ = Some (s2, b) /\
    allocator_alloc 1 s2 UNITSZ = Some (s3, c) /\
    allocator_free 1 s3 a = Some s4 /\
    allocator_free 1 s4 c = Some s5 /\
    allocator_free 1 s5 b = Some s6 /\
    free_list 2 s5 = Some [(4096, 1); (4096 + 3 * UNITSZ, 2)] /\
    free_list 1 s6 = Some [(4096, 5)] /\
    a = 4096 + 4 * UNITSZ /\ b = 4096 + 2 * UNITSZ /\ c = NULL.
Proof.
  apply (coalesce_both_sides 4096 zero_mem zero_mem zero_mem 1%nat).
  - lia.
  - reflexivity.
  - unfold UNITSZ. lia.
  - lia.
Defined.

Lemma alloc_splits_from_tail_witness :
  (exists k : nat, forall fuel, (k <= fuel)%nat ->
   exists s',
     allocator_alloc fuel (seeded 4096 10) UNITSZ = Some (s', 4224 + UNITSZ) /\
     nunits s' 4096 = 8 /\ nunits s' 4224 = 2 /\
     (forall x, x <> 4096 -> x <> 4224 ->
                nunits s' x = nunits (seeded 4096 10) x) /\
     nxt s' = nxt (seeded 4096 10) /\ a_p s' = 4096 /\
     4096 < 4224 /\ 4224 + 2 * UNITSZ = 4096 + 10 * UNITSZ) /\
  (exists s0 s1 p,
     allocator_add 1 (ALLOCATOR_INIT zero_mem zero_mem zero_mem) 4096
       (10 * UNITSZ) = Some s0 /\
     allocator_alloc 1 s0 UNITSZ = Some (s1, p) /\
     4096 + 5 * UNITSZ <= p /\ p + UNITSZ <= 4096 + 10 * UNITSZ /\
     free_list 1 s1 = Some [(4096, 8)]).
Proof.
  split.
  - apply (proj1 alloc_splits_from_tail (seeded 4096 10) UNITSZ 4096 4096).
    + reflexivity.
    + now vm_compute.
    + now vm_compute.
    + exact (walk_first (seeded 4096 10) (units_needed UNITSZ)).
    + now vm_compute.
  - apply (proj2 alloc_splits_from_tail 4096 zero_mem zero_mem zero_mem 1%nat).
    + lia.
    + reflexivity.
    + unfold UNITSZ. lia.
    + lia.
Defined.

(** ** The one-node free list and the block just below it *)

(** What [allocator_free] does in that case, for any such state: the freed
    block [p] takes over the units of the only node [c], and [c] stays on
    the ring, now inside [p]. *)
Lemma free_below_single_links fuel s c ptr :
  a_p s = c -> c <> NULL -> nxt s c = c ->
  ptr <> NULL -> ptr - UNITSZ < c ->
  ptr - UNITSZ + nunits s (ptr - UNITSZ) * UNITSZ = c ->
  1 <= nunits s (ptr - UNITSZ) -> 1 <= nunits s c ->
  nunits s (ptr - UNITSZ) + nunits s c < 2 ^ 64 ->
  exists s',
    allocator_free (S fuel) s ptr = Some s' /\
    a_p s' = c /\ nxt s' c = ptr - UNITSZ /\ nxt s' (ptr - UNITSZ) = c /\
    nunits s' c = nunits s c /\
    nunits s' (ptr - UNITSZ) = nunits s (ptr - UNITSZ) + nunits s c.
Proof.
  intros Hc Hcn Hself Hptr Hlt Hadj Hp1 Hc1 Hsum.
  set (p := ptr - UNITSZ) in *.
  eexists. split.
  { rewrite allocator_free_nonnull by (assumption || now rewrite Hc).
    fold p. rewrite Hc. cbn [free_walk]. rewrite Hself.
    rewrite (proj2 (Z.ltb_ge c p)) by lia. cbn [andb].
    rewrite (proj2 (Z.leb_le c c)), (proj2 (Z.ltb_lt p c)) by lia.
    cbn [andb orb]. reflexivity. }
  unfold free_link. rewrite Hself.
  rewrite (proj2 (Z.eqb_eq _ _) Hadj). cbv zeta. proj. rewrite Hself.
  unfold UNITSZ in *.
  rewrite (upd_other _ p _ c) by lia.
  rewrite (proj2 (Z.eqb_neq (c + nunits s c * 16) p)) by lia.
  proj. rewrite upd_same, (upd_other _ c _ p), upd_same by lia.
  rewrite (upd_other _ p _ c) by lia. rewrite wrap_small by lia.
  rewrite upd_same. auto.
Qed.

(** C3: the free list stays a ring in address order with a gap between
    neighbouring blocks.  The code breaks this when a block is freed that
    ends exactly where the only node of a one-node free list starts: the
    freed block absorbs that node, and the node stays linked.  On four
    seeded units, [a = alloc(1)], [b = alloc(1)], [free(a)], [free(b)]
    leaves the ring [a-block (2 units) -> b-block (4 units)], where the
    second block covers the first. *)
Theorem free_below_single_overlaps :
  exists s,
    free_below_single = Some s /\
    free_list 2 s = Some [(4128, 2); (4096, 4)] /\
    (4096 <? 4128) = true /\ (4096 + 4 * UNITSZ <? 4128) = false /\
    no_touching [(4128, 2); (4096, 4)] = false.
Proof. eexists. repeat split; reflexivity. Qed.

(** * Further properties of the code *)

(** ** aln_offset: the least offset *)

(** X1: [aln_offset] returns the least non-negative value that brings [base]
    to a multiple of [aln]; it is zero exactly on aligned addresses. *)
Theorem aln_offset_least base aln :
  0 < aln < 256 ->
  0 <= aln_offset base aln < aln /\
  (base + aln_offset base aln) mod aln = 0 /\
  (forall d, 0 <= d -> (base + d) mod aln = 0 -> aln_offset base aln <= d) /\
  (aln_offset base aln = 0 <-> base mod aln = 0).
Proof.
  intros Ha.
  destruct (aln_offset_spec base aln) as [Hr Hm]; [lia |].
  split; [assumption |]. split; [assumption |]. split.
  - intros d Hd Hdm.
    destruct (Z_le_gt_dec (aln_offset base aln) d) as [Hle | Hgt];
      [assumption | exfalso].
    apply Z.mod_divide in Hm; [| lia]. apply Z.mod_divide in Hdm; [| lia].
    destruct Hm as [k1 Hk1], Hdm as [k2 Hk2].
    assert (aln_offset base aln - d = (k1 - k2) * aln) as Hdiff by lia.
    assert (0 < k1 - k2 < 1) by nia. lia.
  - split.
    + intros H0. rewrite H0, Z.add_0_r in Hm. assumption.
    + intros Hb. now apply aln_offset_aligned; [lia |].
Qed.

Lemma aln_offset_least_witness :
  0 <= aln_offset 4100 ALIGNOF_SIZE_T < ALIGNOF_SIZE_T /\
  (4100 + aln_offset 4100 ALIGNOF_SIZE_T) mod ALIGNOF_SIZE_T = 0 /\
  (forall d, 0 <= d -> (4100 + d) mod ALIGNOF_SIZE_T = 0 ->
             aln_offset 4100 ALIGNOF_SIZE_T <= d) /\
  (aln_offset 4100 ALIGNOF_SIZE_T = 0 <-> 4100 mod ALIGNOF_SIZE_T = 0).
Proof.
  apply (aln_offset_least 4100 ALIGNOF_SIZE_T). unfold ALIGNOF_SIZE_T. lia.
Defined.

(** ** allocator_alloc: a failed request changes nothing *)

(** X2: Whenever [allocator_alloc] returns null -- for any of its reasons --
    the state it leaves is the state it found.  The headers of the free
    list are at non-null addresses. *)
Theorem alloc_null_unchanged fuel s n s' :
  0 <= n -> (forall x, reach s x -> 0 < x) ->
  allocator_alloc fuel s n = Some (s', NULL) -> s' = s.
Proof.
  intros Hn Hpos H. apply allocator_alloc_inv in H; [| assumption].
  destruct H as [(-> & _) | (_ & _ & Hp & prv & cur & Hw & Hex)];
    [reflexivity |].
  now destruct (alloc_exit_null _ _ _ _ _ _ Hex Hpos Hp Hw eq_refl).
Qed.

Lemma alloc_null_unchanged_witness :
  fst (result_of (allocator_alloc 1 (seeded 4096 10) (20 * UNITSZ)))
  = seeded 4096 10.
Proof.
  apply (alloc_null_unchanged 1%nat (seeded 4096 10) (20 * UNITSZ)).
  - unfold UNITSZ. lia.
  - intros x Hx. apply reach_singleton in Hx; [| reflexivity].
    subst x. reflexivity.
  - reflexivity.
Defined.

(** ** allocator_alloc: which requests succeed *)

Lemma units_needed_le_iff n k :
  0 < n -> n + aln_offset n UNITSZ <= SIZE_MAX ->
  (units_needed n <= k <-> n <= (k - 1) * UNITSZ).
Proof.
  intros Hn Hov.
  destruct (units_needed_spec n Hn Hov) as (H1 & H2 & H3).
  destruct (aln_offset_spec n UNITSZ) as [Hi _]; [unfold UNITSZ; lia |].
  unfold UNITSZ in *. lia.
Qed.

Lemma allocator_alloc_terminates s n k fuel :
  (a_p s <> NULL -> ring_closed s k) -> (k <= fuel)%nat ->
  exists res, allocator_alloc fuel s n = Some res.
Proof.
  intros Hring Hfuel. unfold allocator_alloc.
  destruct ((n =? 0) || _); [eexists; reflexivity |].
  destruct (Z.eqb_spec (a_p s) NULL) as [Hp | Hp]; [eexists; reflexivity |].
  destruct (Hring Hp) as [Hk Hcl].
  apply (alloc_loop_terminates s _ (k - 1) 1 fuel (a_p s)); [| lia].
  now replace (1 + (k - 1))%nat with k by lia.
Qed.

(** X3: On a free list that is a closed ring of usable blocks, [alloc(n)]
    returns (with fuel for one lap) and succeeds exactly when [n > 0] and
    some free block has a payload capacity [(nunits - 1) * UNITSZ] of at
    least [n] -- the figure [allocator_for_blocks] reports for the block. *)
Theorem alloc_succeeds_iff_capacity s n k fuel :
  0 <= n <= SIZE_MAX -> unit_discipline s ->
  (a_p s <> NULL -> ring_closed s k) -> (k <= fuel)%nat ->
  exists s' r,
    allocator_alloc fuel s n = Some (s', r) /\
    (r <> NULL <->
     0 < n /\ exists x, reach s x /\ n <= (nunits s x - 1) * UNITSZ).
Proof.
  intros Hn Hud Hring Hfuel.
  destruct (allocator_alloc_terminates s n k fuel Hring Hfuel)
    as [[s' r] Hres].
  exists s', r. split; [assumption |].
  apply allocator_alloc_inv in Hres; [| lia].
  destruct Hres
    as [(_ & -> & Hwhy) | (Hpos & Hov & Hp & prv & cur & Hw & Hex)].
  - split; [intros H; now contradiction H |].
    intros [Hpos (x & Hx & Hcap)]. exfalso.
    destruct Hwhy as [H | [H | H]]; [lia | | now apply reach_nonempty in Hx].
    destruct (Hud x Hx) as (Hx0 & _ & Hx1 & Hx2).
    destruct (aln_offset_spec n UNITSZ) as [Hi _]; [unfold UNITSZ; lia |].
    unfold SIZE_MAX, UNITSZ in *. lia.
  - destruct (alloc_walk_reach _ _ _ _ Hp Hw) as [_ Hc].
    pose proof (fun x Hx => proj1 (Hud x Hx)) as Hnn.
    split.
    + intros Hr. split; [assumption |]. exists cur. split; [assumption |].
      apply units_needed_le_iff; try assumption.
      destruct Hex as [Hlt Hcur | He Hne | He Hne | Hgt];
        [contradiction | lia ..].
    + intros [_ (x & Hx & Hcap)] Hr.
      destruct (alloc_exit_null _ _ _ _ _ _ Hex Hnn Hp Hw Hr) as (_ & Hlt & ->).
      pose proof (alloc_nomatch_all_small s _ prv Hw Hlt x Hx) as Hsmall.
      apply units_needed_le_iff in Hcap; try assumption. lia.
Qed.

Lemma alloc_succeeds_iff_capacity_witness :
  exists s' r,
    allocator_alloc 1 (seeded 4096 10) (9 * UNITSZ) = Some (s', r) /\
    (r <> NULL <->
     0 < 9 * UNITSZ /\
     exists x, reach (seeded 4096 10) x /\
               9 * UNITSZ <= (nunits (seeded 4096 10) x - 1) * UNITSZ).
Proof.
  apply (alloc_succeeds_iff_capacity (seeded 4096 10) (9 * UNITSZ) 1%nat
           1%nat).
  - unfold SIZE_MAX, UNITSZ. lia.
  - intros x Hx. apply reach_singleton in Hx; [| reflexivity].
    subst x. unfold block_ok. now vm_compute.
  - intros _. split; [lia | reflexivity].
  - lia.
Defined.

(** ** allocator_alloc: next fit takes the first match *)

Lemma alloc_walk_iter s need prv cur :
  alloc_walk s need prv cur ->
  exists i : nat,
    prv = Nat.iter i (nxt s) (a_p s) /\
    cur = Nat.iter (S i) (nxt s) (a_p s) /\
    forall j : nat, (1 <= j <= i)%nat ->
      nunits s (Nat.iter j (nxt s) (a_p s)) < need.
Proof.
  induction 1 as [| prv cur Hw (i & Hprv & Hcur & Hsmall) Hlt Hne].
  - exists 0%nat. repeat split. intros j Hj. lia.
  - exists (S i). split; [assumption |]. split; [cbn; now rewrite Hcur |].
    intros j Hj. destruct (Nat.eq_dec j (S i)) as [-> | Hd].
    + now rewrite <- Hcur.
    + apply Hsmall. lia.
Qed.

(** X4: A successful [alloc(n)] takes the first block, in [nxt] order after
    the cursor, that has at least [need = units_needed n] units: every block
    met before it is too small.  The block handed out is the top [need]
    units of that block.  The cursor becomes null exactly when that block
    is the only node of the list and is taken whole; in every other case
    it is left on the predecessor of the block.  Header fields are
    [size_t] values. *)
Theorem alloc_first_fit fuel s n s' r :
  0 <= n -> (forall x, reach s x -> nunits s x < 2 ^ 64) ->
  allocator_alloc fuel s n = Some (s', r) -> r <> NULL ->
  exists i : nat,
    let prv := Nat.iter i (nxt s) (a_p s) in
    let cur := Nat.iter (S i) (nxt s) (a_p s) in
    (forall j : nat, (1 <= j <= i)%nat ->
       nunits s (Nat.iter j (nxt s) (a_p s)) < units_needed n) /\
    units_needed n <= nunits s cur /\
    r - UNITSZ + units_needed n * UNITSZ = cur + nunits s cur * UNITSZ /\
    ((nunits s cur = units_needed n /\ nxt s cur = cur /\ a_p s' = NULL) \/
     (~ (nunits s cur = units_needed n /\ nxt s cur = cur) /\ a_p s' = prv)).
Proof.
  intros Hn Hsz H Hr. apply allocator_alloc_inv in H; [| assumption].
  destruct H as [(_ & Hnull & _) | (_ & _ & Hp & prv & cur & Hw & Hex)];
    [contradiction |].
  destruct (alloc_walk_reach _ _ _ _ Hp Hw) as [_ Hc]. apply Hsz in Hc.
  destruct (alloc_walk_iter _ _ _ _ Hw) as (i & Hprv & Hcur & Hsmall).
  exists i. cbv zeta.
  assert (cur = nxt s prv) as Hlink.
  { rewrite Hcur, Hprv. reflexivity. }
  rewrite <- Hprv, <- Hcur.
  split; [assumption |].
  pose proof (units_needed_pos n) as Hneed.
  destruct Hex as [Hlt Hcu | He Hne | He Hne | Hgt];
    cbn [a_p set_p]; [contradiction | | |].
  - split; [lia |]. split; [lia |]. right. split; [| reflexivity].
    intros [_ E]. apply Hne. rewrite <- Hlink. now symmetry.
  - split; [lia |]. split; [lia |]. left.
    split; [assumption |]. split; [| reflexivity].
    rewrite <- Hne. now symmetry.
  - rewrite wrap_small by lia. split; [lia |]. split; [lia |].
    right. split; [lia | reflexivity].
Qed.

Lemma alloc_first_fit_witness :
  exists i : nat,
    let prv := Nat.iter i (nxt (seeded 4096 10)) (a_p (seeded 4096 10)) in
    let cur :=
      Nat.iter (S i) (nxt (seeded 4096 10)) (a_p (seeded 4096 10)) in
    (forall j : nat, (1 <= j <= i)%nat ->
       nunits (seeded 4096 10)
         (Nat.iter j (nxt (seeded 4096 10)) (a_p (seeded 4096 10)))
       < units_needed 1) /\
    units_needed 1 <= nunits (seeded 4096 10) cur /\
    snd first_alloc - UNITSZ + units_needed 1 * UNITSZ
    = cur + nunits (seeded 4096 10) cur * UNITSZ /\
    ((nunits (seeded 4096 10) cur = units_needed 1 /\
      nxt (seeded 4096 10) cur = cur /\ a_p (fst first_alloc) = NULL) \/
     (~ (nunits (seeded 4096 10) cur = units_needed 1 /\
         nxt (seeded 4096 10) cur = cur) /\
      a_p (fst first_alloc) = prv)).
Proof.
  apply (alloc_first_fit 1%nat (seeded 4096 10) 1 (fst first_alloc)
           (snd first_alloc)).
  - lia.
  - intros x Hx. apply reach_singleton in Hx; [| reflexivity].
    subst x. reflexivity.
  - reflexivity.
  - now vm_compute.
Defined.

(** ** allocator_add: which regions are taken, and where the block lies *)

(** X10: A region of at most [inc + UNITSZ] bytes, [inc] being the alignment
    offset of its base, is ignored: the state is unchanged (so a region of
    exactly one aligned unit is not taken).  A larger region handed to an
    empty allocator becomes the only free block: it starts at the first
    aligned address, fewer than [alignof(size_t)] bytes into the region,
    ends inside the region fewer than [UNITSZ] bytes before its end, and
    holds the whole units in between. *)
Theorem add_region fuel s base nbytes :
  0 < base -> 0 <= nbytes -> base + nbytes <= 2 ^ 64 ->
  let inc := aln_offset base ALIGNOF_SIZE_T in
  let new := base + inc in
  let n := (nbytes - inc) / UNITSZ in
  (nbytes <= inc + UNITSZ -> allocator_add fuel s base nbytes = Some s) /\
  (inc + UNITSZ < nbytes -> a_p s = NULL ->
   exists s',
     allocator_add fuel s base nbytes = Some s' /\
     free_list 1 s' = Some [(new, n)] /\
     base <= new < base + ALIGNOF_SIZE_T /\
     base + nbytes - UNITSZ < new + n * UNITSZ <= base + nbytes).
Proof.
  intros Hb Hn Hsz inc new n. split.
  - intros Hsmall. unfold allocator_add. fold inc.
    now rewrite (proj2 (Z.ltb_ge _ _) Hsmall).
  - intros Hbig Hp.
    destruct (add_header_place base nbytes Hb Hsz Hbig) as (Hnew & Ha & Hr & He).
    fold inc in Hnew, He, Hr. fold new in Hnew, He, Hr.
    rewrite Hnew in He, Hr.
    destruct (aln_offset_spec base ALIGNOF_SIZE_T) as [Hi _];
      [unfold ALIGNOF_SIZE_T; lia |].
    fold inc in Hi.
    assert (wrap (nbytes - inc) = nbytes - inc) as Hw
        by (apply wrap_small; unfold UNITSZ in *; lia).
    rewrite Hw in He. fold n in He.
    assert (1 <= n /\ nbytes - inc - UNITSZ < n * UNITSZ) as [Hn1 Hn2].
    { unfold n, UNITSZ in *.
      pose proof (Z.div_mod (nbytes - inc) 16 ltac:(lia)).
      pose proof (Z.mod_pos_bound (nbytes - inc) 16 ltac:(lia)). lia. }
    eexists. split.
    { unfold allocator_add. fold inc. rewrite Hw. fold n.
      rewrite (proj2 (Z.ltb_lt _ _) Hbig).
      rewrite (proj2 (Z.eqb_neq n 0)) by lia. cbn [andb negb].
      fold new. rewrite Hnew.
      rewrite allocator_free_empty;
        [reflexivity | unfold NULL, UNITSZ; lia | exact Hp]. }
    replace (new + UNITSZ - UNITSZ) with new by lia.
    split.
    { rewrite free_list_singleton.
      - cbn [a_p nunits set_nxt set_p set_nunits]. now rewrite upd_same.
      - cbn [a_p set_nxt set_p]. unfold NULL. lia.
      - cbn [a_p nxt set_nxt set_p]. apply upd_same. }
    split; [assumption | lia].
Qed.

Lemma add_region_witness :
  (16 <= aln_offset 4100 ALIGNOF_SIZE_T + UNITSZ ->
   allocator_add 1 (seeded 4096 10) 4100 16 = Some (seeded 4096 10)) /\
  (aln_offset 4100 ALIGNOF_SIZE_T + UNITSZ < 100 ->
   a_p (ALLOCATOR_INIT zero_mem zero_mem zero_mem) = NULL ->
   exists s',
     allocator_add 1 (ALLOCATOR_INIT zero_mem zero_mem zero_mem) 4100 100
     = Some s' /\
     free_list 1 s' =
     Some [(4100 + aln_offset 4100 ALIGNOF_SIZE_T,
            (100 - aln_offset 4100 ALIGNOF_SIZE_T) / UNITSZ)] /\
     4100 <= 4100 + aln_offset 4100 ALIGNOF_SIZE_T
     < 4100 + ALIGNOF_SIZE_T /\
     4100 + 100 - UNITSZ
     < 4100 + aln_offset 4100 ALIGNOF_SIZE_T +
       (100 - aln_offset 4100 ALIGNOF_SIZE_T) / UNITSZ * UNITSZ
     <= 4100 + 100).
Proof.
  split.
  - apply (proj1 (add_region 1%nat (seeded 4096 10) 4100 16
                    ltac:(lia) ltac:(lia) ltac:(lia))).
  - apply (proj2 (add_region 1%nat
                    (ALLOCATOR_INIT zero_mem zero_mem zero_mem) 4100 100
                    ltac:(lia) ltac:(lia) ltac:(lia))).
Defined.

(** ** Rings *)

Lemma path_next s : forall l x y a,
  path s x l y -> In a l -> In (nxt s a) l \/ nxt s a = y.
Proof.
  induction l as [| b l IH]; intros x y a Hp Hin; [contradiction |].
  destruct Hp as [-> Hp]. destruct Hin as [<- | Hin].
  - destruct l as [| c l]; [now right |].
    left. right. left. now destruct Hp.
  - destruct (IH _ _ _ Hp Hin) as [H | H]; [left; now right | now right].
Qed.

Lemma path_app s : forall l1 l2 x y,
  path s x (l1 ++ l2) y <-> exists m, path s x l1 m /\ path s m l2 y.
Proof.
  induction l1 as [| a l1 IH]; intros l2 x y; cbn [app path].
  - split; [intros H; now exists x | intros (m & -> & H); assumption].
  - rewrite IH. split.
    + intros (Ha & m & H1 & H2). exists m. auto.
    + intros (m & (Ha & H1) & H2). split; [assumption |]. now exists m.
Qed.

(** Links outside a list do not matter to a path through it. *)
Lemma path_frame s s' : forall l x y,
  (forall a, In a l -> nxt s' a = nxt s a) ->
  path s x l y -> path s' x l y.
Proof.
  induction l as [| b l IH]; intros x y Hsame Hp; [assumption |].
  destruct Hp as [-> Hp]. split; [reflexivity |].
  rewrite (Hsame x) by now left.
  apply IH; [| assumption]. intros a Ha. apply Hsame. now right.
Qed.

Lemma path_iter s : forall l x y,
  path s x l y -> Nat.iter (length l) (nxt s) x = y.
Proof.
  induction l as [| b l IH]; intros x y Hp; [assumption |].
  destruct Hp as [-> Hp]. cbn [length]. rewrite Nat.iter_succ_r.
  now apply IH.
Qed.

Lemma path_iter_in s : forall l x y,
  path s x l y -> In y l ->
  forall j : nat, In (Nat.iter j (nxt s) x) l.
Proof.
  intros l x y Hp Hy.
  assert (In x l) as Hx.
  { destruct l as [| b l]; [contradiction |]. destruct Hp as [-> _]. now left. }
  induction j as [| j IH]; [assumption |].
  change (In (nxt s (Nat.iter j (nxt s) x)) l).
  destruct (path_next s l x y _ Hp IH) as [H | H];
    [assumption | now rewrite H].
Qed.

Lemma ring_cursor s l : l <> [] -> ring s l -> In (a_p s) l /\ a_p s <> NULL.
Proof.
  intros Hne Hr. destruct l as [| c l]; [contradiction |].
  destruct Hr as (Hp & _ & -> & _). split; [now left | assumption].
Qed.

Lemma ring_next s l a : ring s l -> In a l -> In (nxt s a) l.
Proof.
  intros Hr Ha. destruct l as [| c l]; [contradiction |].
  pose proof Hr as (Hp & _ & Hpath).
  destruct (path_next s _ _ _ a Hpath Ha) as [H | ->]; [assumption |].
  now destruct (ring_cursor s (c :: l)).
Qed.

Lemma ring_reach s l x : ring s l -> (reach s x <-> In x l).
Proof.
  intros Hr. split.
  - intros Hx. destruct l as [| c l].
    + apply reach_nonempty in Hx. contradiction.
    + revert x Hx. apply reach_sub.
      * intros _. now destruct (ring_cursor s (c :: l)).
      * intros x Hx. now apply (ring_next s (c :: l)).
  - intros Hx. destruct l as [| c l]; [contradiction |].
    destruct Hr as (Hp & _ & Hpath).
    assert (forall l x y, path s x l y -> reach s x ->
                          forall a, In a l -> reach s a) as Hall.
    { clear. induction l as [| b l IH]; intros x y Hp Hx a Ha;
        [contradiction |].
      destruct Hp as [-> Hp]. destruct Ha as [<- | Ha]; [assumption |].
      apply (IH _ _ Hp); [now apply reach_next | assumption]. }
    apply (Hall _ _ _ Hpath); [now apply reach_cursor | assumption].
Qed.

Lemma ring_closed_of_ring s l :
  l <> [] -> ring s l -> ring_closed s (length l).
Proof.
  intros Hne Hr. destruct l as [| c l]; [contradiction |].
  destruct Hr as (_ & _ & Hpath). split; [cbn; lia |].
  now apply path_iter.
Qed.

(** ** allocator_for_blocks: one call per free block *)

Lemma for_blocks_loop_path s : forall l x fuel,
  l <> [] -> path s x l (a_p s) ->
  (forall a, In a (tl l) -> a <> a_p s) ->
  (length l <= fuel)%nat ->
  for_blocks_loop fuel s x =
  Some (map (fun a => allocator_allocsz s (a + UNITSZ)) l).
Proof.
  induction l as [| b l IH]; intros x fuel Hne Hp Htl Hf; [contradiction |].
  destruct Hp as [-> Hp]. destruct fuel as [| fuel]; [cbn in Hf; lia |].
  cbn [for_blocks_loop map]. destruct l as [| c l].
  - cbn in Hp. now rewrite Hp, Z.eqb_refl.
  - pose proof Hp as [Hc _].
    rewrite (proj2 (Z.eqb_neq (nxt s x) (a_p s)))
      by (rewrite <- Hc; apply Htl; now left).
    cbn [negb]. rewrite (IH (nxt s x) fuel); try assumption.
    + reflexivity.
    + discriminate.
    + intros a Ha. apply Htl. now right.
    + cbn [length] in *. lia.
Qed.

(** X12: On a free list that is a ring, [allocator_for_blocks] returns (with
    fuel for one lap) after calling the callback exactly once per free
    block, in [nxt] order starting at the cursor, each time with the
    block's payload capacity; on an empty allocator it makes no call. *)
Theorem for_blocks_visits_each_once s l fuel :
  ring s l -> (length l <= fuel)%nat ->
  allocator_for_blocks fuel s =
  Some (map (fun a => allocator_allocsz s (a + UNITSZ)) l).
Proof.
  intros Hr Hf. unfold allocator_for_blocks. destruct l as [| c l].
  - cbn in Hr. now rewrite Hr.
  - destruct Hr as (Hp & Hnd & Hpath).
    rewrite (proj2 (Z.eqb_neq _ _) Hp). cbn [negb].
    apply for_blocks_loop_path; try assumption; [discriminate |].
    intros a Ha. cbn [tl] in Ha. destruct Hpath as [-> _].
    apply NoDup_cons_iff in Hnd. intros ->. now apply Hnd.
Qed.

Lemma two_free_blocks_ring : ring two_free_blocks [4096; 4144].
Proof.
  split; [now vm_compute |]. split.
  - repeat constructor; cbn; intuition discriminate.
  - repeat split.
Qed.

Lemma for_blocks_visits_each_once_witness :
  allocator_for_blocks 2 two_free_blocks =
  Some (map (fun a => allocator_allocsz two_free_blocks (a + UNITSZ))
          [4096; 4144]).
Proof.
  apply (for_blocks_visits_each_once two_free_blocks [4096; 4144] 2%nat).
  - exact two_free_blocks_ring.
  - cbn. lia.
Defined.

(** ** allocator_free: the insertion walk *)

Lemma free_walk_some s p : forall fuel x cur,
  free_walk fuel s p x = Some cur ->
  insertion_point s p cur /\ exists j : nat, cur = Nat.iter j (nxt s) x.
Proof.
  induction fuel as [| fuel IH]; intros x cur H; [discriminate |].
  cbn [free_walk] in H.
  destruct (Z.ltb_spec x p), (Z.ltb_spec p (nxt s x)),
    (Z.leb_spec (nxt s x) x); cbn [andb orb] in H;
    try (injection H as <-; split;
         [unfold insertion_point; lia | now exists 0%nat]);
    (destruct (IH _ _ H) as [Hi [j Hj]]; split; [assumption |];
     exists (S j); now rewrite Nat.iter_succ_r).
Qed.

Lemma free_walk_none s p : forall fuel x,
  free_walk fuel s p x = None ->
  forall j : nat, (j < fuel)%nat ->
    ~ insertion_point s p (Nat.iter j (nxt s) x).
Proof.
  induction fuel as [| fuel IH]; intros x H j Hj; [lia |].
  cbn [free_walk] in H.
  destruct (Z.ltb_spec x p), (Z.ltb_spec p (nxt s x)),
    (Z.leb_spec (nxt s x) x); cbn [andb orb] in H; try discriminate;
    (destruct j as [| j];
     [change (Nat.iter 0 (nxt s) x) with x; unfold insertion_point; lia
     | rewrite Nat.iter_succ_r; apply IH; [assumption | lia]]).
Qed.

(** While the walk finds no insertion point, the nodes it meets climb:
    below [p] they stay below [p] and rise; above [p] they rise until they
    drop below [p]. *)
Lemma free_walk_climbs s p c (m : nat) :
  (forall j : nat, (j < m)%nat ->
     ~ insertion_point s p (Nat.iter j (nxt s) c)) ->
  (forall j : nat, Nat.iter j (nxt s) c <> p) ->
  forall j : nat, (j <= m)%nat ->
    (c < p -> Nat.iter j (nxt s) c < p /\
              c + Z.of_nat j <= Nat.iter j (nxt s) c) /\
    (p < c -> Nat.iter j (nxt s) c < p \/
              c + Z.of_nat j <= Nat.iter j (nxt s) c).
Proof.
  intros Hno Hne. induction j as [| j IH]; intros Hj.
  - change (Nat.iter 0 (nxt s) c) with c. lia.
  - specialize (IH ltac:(lia)). specialize (Hno j ltac:(lia)).
    pose proof (Hne (S j)) as Hn1. pose proof (Hne j) as Hn0.
    change (Nat.iter (S j) (nxt s) c) with (nxt s (Nat.iter j (nxt s) c))
      in *.
    set (x := Nat.iter j (nxt s) c) in *.
    unfold insertion_point in Hno. lia.
Qed.

Lemma free_walk_terminates s p c (k fuel : nat) :
  (1 <= k)%nat -> Nat.iter k (nxt s) c = c ->
  (forall j : nat, Nat.iter j (nxt s) c <> p) ->
  (k <= fuel)%nat ->
  exists cur, free_walk fuel s p c = Some cur.
Proof.
  intros Hk Hcl Hne Hf.
  destruct (free_walk fuel s p c) as [cur |] eqn:H; [now exists cur |].
  exfalso.
  pose proof (free_walk_none s p fuel c H) as Hno.
  assert (forall j : nat, (j < k)%nat ->
            ~ insertion_point s p (Nat.iter j (nxt s) c)) as Hno'
      by (intros j Hj; apply Hno; lia).
  pose proof (free_walk_climbs s p c k Hno' Hne k ltac:(lia)) as [H1 H2].
  pose proof (Hne 0%nat) as H0.
  change (Nat.iter 0 (nxt s) c) with c in H0.
  rewrite Hcl in H1, H2. lia.
Qed.

(** X6: [allocator_free] returns, with fuel for one lap of the ring, whenever
    the block given back is not already on the free list. *)
Theorem free_terminates s ptr k fuel :
  (a_p s <> NULL -> ring_closed s k) ->
  (forall x, reach s x -> x <> ptr - UNITSZ) ->
  (k <= fuel)%nat ->
  exists s', allocator_free fuel s ptr = Some s'.
Proof.
  intros Hring Hnot Hf. unfold allocator_free.
  destruct (ptr =? NULL); [eexists; reflexivity |].
  destruct (Z.eqb_spec (a_p s) NULL) as [Hp | Hp]; cbn [negb];
    [eexists; reflexivity |].
  destruct (Hring Hp) as [Hk Hcl].
  destruct (free_walk_terminates s (ptr - UNITSZ) (a_p s) k fuel Hk Hcl)
    as [cur ->]; [| assumption | eexists; reflexivity].
  intros j. apply Hnot. now apply reach_iter.
Qed.

Lemma free_terminates_witness :
  exists s', allocator_free 2 two_free_blocks (4112 + UNITSZ) = Some s'.
Proof.
  apply (free_terminates two_free_blocks (4112 + UNITSZ) 2%nat 2%nat).
  - intros _. split; [lia | reflexivity].
  - intros x Hx. apply (ring_reach _ _ _ two_free_blocks_ring) in Hx.
    unfold UNITSZ. cbn in Hx. lia.
  - lia.
Defined.

(** ** allocator_free: the fields it writes *)

(** The fields after [free_link], in one formula per field. *)
Lemma free_link_fields s p cur :
  p <> cur ->
  let N := nxt s cur in
  let F := p + nunits s p * UNITSZ =? N in
  let B := cur + nunits s cur * UNITSZ =? p in
  let np1 := if F then wrap (nunits s p + nunits s N) else nunits s p in
  let vp := if F then nxt s N else N in
  let s' := free_link s p cur in
  a_p s' = cur /\ bytes s' = bytes s /\
  (forall x, nxt s' x =
             if x =? cur then (if B then vp else p)
             else if x =? p then vp else nxt s x) /\
  (forall x, nunits s' x =
             if x =? cur then
               (if B then wrap (nunits s cur + np1) else nunits s cur)
             else if x =? p then np1 else nunits s x).
Proof.
  intros Hne N F B np1 vp s'. subst s'. unfold free_link. fold N. fold F.
  destruct F eqn:HF; cbv zeta;
    cbn [a_p nunits nxt bytes set_p set_nxt set_nunits];
    rewrite ?(upd_other _ p _ cur) by congruence; fold B;
    destruct B eqn:HB;
    cbn [a_p nunits nxt bytes set_p set_nxt set_nunits];
    (split; [reflexivity |]); (split; [reflexivity |]);
    split; intros x; unfold upd; repeat case_eqb; subst;
    try reflexivity; try congruence.
Qed.

(** Instantiating the facts about a list at every node in sight. *)
Ltac pose_from Hord a :=
  repeat match goal with
    | Ha : In a ?l, Hb : In ?b ?l |- _ =>
        lazymatch goal with
        | _ : ord_pair _ a b |- _ => fail
        | _ => pose proof (Hord a b Ha Hb : ord_pair _ a b)
        end
    end.

Ltac pose_each H P :=
  repeat match goal with
    | Ha : In ?a ?l |- _ =>
        lazymatch goal with
        | _ : P a |- _ => fail
        | _ => pose proof (H a Ha : P a)
        end
    end.

Ltac use_directions :=
  repeat match goal with
    | H : ?a < ?b -> _, H1 : ?a < ?b |- _ => specialize (H H1)
    | H : ?a <= ?b -> _, H1 : ?a <= ?b |- _ => specialize (H H1)
    | H : ?a < ?b -> _, H1 : ?b <= ?a |- _ => clear H
    | H : ?a <= ?b -> _, H1 : ?b < ?a |- _ => clear H
    end.

Ltac split_direction s a :=
  lazymatch goal with
  | _ : a < nxt s a |- _ => idtac
  | _ : nxt s a <= a |- _ => idtac
  | _ => destruct (Z_lt_le_dec a (nxt s a))
  end.

(** The facts about [cur], its successor and a node [y]. *)
Ltac order_facts s p cur Hsz Hap Hord :=
  pose_each Hsz (block_ok s); pose_each Hap (apart s p);
  pose_from Hord cur; pose_from Hord (nxt s cur);
  unfold ord_pair, block_ok, apart, UNITSZ in *;
  split_direction s cur; split_direction s (nxt s cur).

Ltac drop_bounds :=
  repeat match goal with
    | H : _ /\ _ |- _ => destruct H
    end;
  repeat match goal with
    | H : _ <= 2 ^ 64 |- _ => clear H
    | H : _ mod _ = _ |- _ => clear H
    end.

(** The insertion point is the only link the freed block falls into:
    every other link of the list passes it by. *)
Lemma free_point_passed s l0 p cur x :
  in_order s l0 -> In cur l0 -> In (nxt s cur) l0 ->
  In x l0 -> In (nxt s x) l0 -> x <> cur ->
  insertion_point s p cur ->
  ord_pair s x p.
Proof.
  intros Hord Hcur HN Hx Hnx Hne Hins.
  pose proof (Hord cur x Hcur Hx) as H1.
  pose proof (Hord cur (nxt s x) Hcur Hnx) as H2.
  pose proof (Hord x cur Hx Hcur) as H3.
  pose proof (Hord x (nxt s cur) Hx HN) as H4.
  pose proof (Hord x x Hx Hx) as H5.
  unfold ord_pair, insertion_point in *.
  destruct (Z_lt_le_dec cur (nxt s cur)), (Z_lt_le_dec x (nxt s x));
    use_directions; lia.
Qed.

(** Address order after [free_link], for the nodes that are then on the
    list: [cur], the freed block unless merged into [cur], the successor
    of [cur] unless merged into the freed block, and the other nodes. *)
Lemma in_order_free_link s l0 p cur :
  (forall a, In a l0 -> In (nxt s a) l0) ->
  in_order s l0 -> In cur l0 ->
  (forall a, In a l0 -> block_ok s a) -> block_ok s p ->
  (forall a, In a l0 -> apart s p a) ->
  insertion_point s p cur ->
  ~ (nxt s cur = cur /\ p + nunits s p * UNITSZ = cur) ->
  let N := nxt s cur in
  let F := p + nunits s p * UNITSZ =? N in
  let B := cur + nunits s cur * UNITSZ =? p in
  let s' := free_link s p cur in
  let M' := fun x =>
    x = cur \/ (x = p /\ B = false) \/ (x <> cur /\ x = N /\ F = false) \/
    (In x l0 /\ x <> cur /\ x <> N) in
  forall x y, M' x -> M' y -> ord_pair s' x y.
Proof.
  intros Hcl Hord Hcur Hsz Hp Hap Hins Hnd N F B s' M' x y Hx Hy.
  assert (forall a, In a l0 -> a <> p) as Hnp.
  { intros a Ha. specialize (Hap a Ha).
    destruct (Hsz a Ha) as (? & ? & ? & ?).
    destruct Hp as (? & ? & ? & ?). unfold apart, UNITSZ in *. lia. }
  assert (p <> cur) as Hpc by (intros ->; now apply (Hnp cur)).
  destruct (free_link_fields s p cur Hpc) as (_ & _ & Hnxt & Hnun).
  fold N F B s' in Hnxt, Hnun.
  assert (In N l0) as HN by now apply Hcl.
  unfold ord_pair. rewrite (Hnxt x), (Hnun x).
  destruct Hx as [Hx | [[Hx HxB] | [(Hxc & Hx & HxF) | (Hx & Hxc & HxN)]]].
  4:{ (* a node away from the insertion point keeps its fields *)
      rewrite (proj2 (Z.eqb_neq x cur) Hxc).
      rewrite (proj2 (Z.eqb_neq x p) (Hnp x Hx)).
      destruct Hy as [Hy | [[Hy HyB] | [(Hyc & Hy & HyF) | (Hy & _ & _)]]];
        try subst y.
      - exact (Hord x cur Hx Hcur).
      - apply (free_point_passed s l0 p cur x); auto.
      - exact (Hord x N Hx HN).
      - exact (Hord x y Hx Hy). }
  all: unfold insertion_point in Hins; fold N in Hins, Hnd;
    destruct Hp as (Hp0 & _ & Hp1 & Hp2);
    pose proof (Hsz cur Hcur) as (Hc0 & _ & Hc1 & Hc2);
    pose proof (Hsz N HN) as (HN0 & _ & HN1 & HN2);
    pose proof (Hap cur Hcur) as Hapc; pose proof (Hap N HN) as HapN;
    unfold apart in Hapc, HapN; subst F B; unfold M' in Hy;
    destruct (Z.eqb_spec (p + nunits s p * UNITSZ) N) as [HF | HF],
      (Z.eqb_spec (cur + nunits s cur * UNITSZ) p) as [HB | HB];
    try discriminate;
    try rewrite (wrap_small (nunits s p + nunits s N))
      by (unfold UNITSZ in *; lia);
    try rewrite wrap_small by (unfold UNITSZ in *; lia);
    destruct Hy as [Hy | [[Hy ?] | [(? & Hy & ?) | (Hy & ? & ?)]]];
    try discriminate;
    repeat case_eqb; try congruence; try subst x; try subst y; subst N;
    order_facts s p cur Hsz Hap Hord; drop_bounds; use_directions; lia.
Qed.

Ltac in_new_list :=
  solve [ left; reflexivity
        | right; left; split; reflexivity
        | right; right; left; repeat split; (assumption || reflexivity)
        | right; right; right; repeat split; assumption ].

(** The bytes covered after [free_link]: those covered before and those of
    the freed block. *)
Lemma covered_free_link s l0 p cur :
  (forall a, In a l0 -> In (nxt s a) l0) ->
  In cur l0 ->
  (forall a, In a l0 -> block_ok s a) -> block_ok s p ->
  (forall a, In a l0 -> apart s p a) ->
  let N := nxt s cur in
  let F := p + nunits s p * UNITSZ =? N in
  let B := cur + nunits s cur * UNITSZ =? p in
  let s' := free_link s p cur in
  let M' := fun x =>
    x = cur \/ (x = p /\ B = false) \/ (x <> cur /\ x = N /\ F = false) \/
    (In x l0 /\ x <> cur /\ x <> N) in
  forall a,
    (exists x, M' x /\ x <= a < x + nunits s' x * UNITSZ) <->
    covered s l0 a \/ p <= a < p + nunits s p * UNITSZ.
Proof.
  intros Hcl Hcur Hsz Hp Hap N F B s' M' a.
  assert (forall a, In a l0 -> a <> p) as Hnp.
  { intros x Hx. specialize (Hap x Hx).
    destruct (Hsz x Hx) as (? & ? & ? & ?).
    destruct Hp as (? & ? & ? & ?). unfold apart, UNITSZ in *. lia. }
  assert (p <> cur) as Hpc by (intros ->; now apply (Hnp cur)).
  destruct (free_link_fields s p cur Hpc) as (_ & _ & _ & Hnun).
  fold N F B s' in Hnun.
  assert (In N l0) as HN by now apply Hcl.
  pose proof (Hnp N HN) as HNp.
  destruct Hp as (Hp0 & _ & Hp1 & Hp2).
  pose proof (Hsz cur Hcur) as (Hc0 & _ & Hc1 & Hc2).
  pose proof (Hsz N HN) as (HN0 & _ & HN1 & HN2).
  pose proof (Hap cur Hcur) as Hapc. pose proof (Hap N HN) as HapN.
  unfold apart in Hapc, HapN. unfold covered.
  subst F B M'. cbv beta.
  destruct (Z.eqb_spec (p + nunits s p * UNITSZ) N) as [HF | HF],
    (Z.eqb_spec (cur + nunits s cur * UNITSZ) p) as [HB | HB];
    try rewrite (wrap_small (nunits s p + nunits s N)) in Hnun
      by (unfold UNITSZ in *; lia);
    try rewrite wrap_small in Hnun by (unfold UNITSZ in *; lia).
  all: split;
    [ intros (x & Hx & Hr); rewrite Hnun in Hr; revert Hr;
      destruct Hx as [Hx | [[Hx ?] | [(? & Hx & ?) | (Hx & ? & ?)]]];
      try discriminate; try subst x;
      try (pose proof (Hnp x Hx)); repeat case_eqb; try congruence;
      intros Hr;
      destruct (Z_lt_le_dec a (cur + nunits s cur * UNITSZ)),
        (Z_lt_le_dec a (p + nunits s p * UNITSZ));
      first [ solve [left; exists cur; split; [assumption | lia]]
            | solve [left; exists N; split; [assumption | lia]]
            | solve [left; exists x; split; [assumption | lia]]
            | solve [right; lia]
            | solve [exfalso; unfold UNITSZ in *; lia] ]
    | intros [(x & Hx & Hr) | Hr];
      [ pose proof (Hnp x Hx);
        destruct (Z.eq_dec x cur) as [-> | Hxc];
        [| destruct (Z.eq_dec x N) as [-> | HxN]] |];
      first
        [ solve [exists cur; split;
                 [in_new_list
                 | rewrite Hnun; repeat case_eqb; try congruence;
                   unfold UNITSZ in *; lia]]
        | solve [exists p; split;
                 [in_new_list
                 | rewrite Hnun; repeat case_eqb; try congruence;
                   unfold UNITSZ in *; lia]]
        | solve [exists N; split;
                 [in_new_list
                 | rewrite Hnun; repeat case_eqb; try congruence;
                   unfold UNITSZ in *; lia]]
        | solve [exists x; split;
                 [in_new_list
                 | rewrite Hnun; repeat case_eqb; try congruence;
                   unfold UNITSZ in *; lia]] ] ].
Qed.

(** ** Rings under rotation *)

Lemma path_rotate s l c x :
  path s c l c -> In x l ->
  exists l1 l2, l = l1 ++ x :: l2 /\ path s x (x :: l2 ++ l1) x.
Proof.
  intros Hp Hx. destruct (in_split x l Hx) as (l1 & l2 & ->).
  exists l1, l2. split; [reflexivity |].
  apply path_app in Hp. destruct Hp as (m & H1 & H2).
  pose proof H2 as [<- _].
  change (x :: l2 ++ l1) with ((x :: l2) ++ l1).
  apply path_app. now exists c.
Qed.

Lemma total_units_perm s l l' :
  Permutation l l' -> total_units s l = total_units s l'.
Proof.
  unfold total_units.
  induction 1 as [| a l l' H IH | a b l | l l' l'' H1 IH1 H2 IH2];
    cbn [map fold_right]; lia.
Qed.

Lemma total_units_app s l1 l2 :
  total_units s (l1 ++ l2) = total_units s l1 + total_units s l2.
Proof.
  unfold total_units. induction l1 as [| a l1 IH]; cbn [app map fold_right];
    lia.
Qed.

Lemma total_units_frame s s' l :
  (forall a, In a l -> nunits s' a = nunits s a) ->
  total_units s' l = total_units s l.
Proof.
  unfold total_units. induction l as [| a l IH]; intros H; [reflexivity |].
  cbn [map fold_right]. rewrite (H a) by now left.
  rewrite IH; [reflexivity |]. intros b Hb. apply H. now right.
Qed.

(** ** allocator_free keeps the free list in order *)

(** [free_link] at an insertion point of a well-formed ring that starts at
    [cur]: the ring stays well formed, gains exactly the bytes and the
    units of the freed block.  The case the code misses -- a one-node ring
    whose node starts where the freed block ends -- is excluded. *)
Lemma free_link_well_formed s cur rest p :
  NoDup (cur :: rest) -> path s cur (cur :: rest) cur ->
  in_order s (cur :: rest) ->
  (forall a, In a (cur :: rest) -> block_ok s a) -> block_ok s p ->
  (forall a, In a (cur :: rest) -> apart s p a) ->
  insertion_point s p cur ->
  ~ (rest = [] /\ p + nunits s p * UNITSZ = cur) ->
  exists l',
    well_formed (free_link s p cur) l' /\
    (forall a, covered (free_link s p cur) l' a <->
               covered s (cur :: rest) a \/
               p <= a < p + nunits s p * UNITSZ) /\
    total_units (free_link s p cur) l' =
    total_units s (cur :: rest) + nunits s p /\
    (forall y, y <> p -> ~ In y (cur :: rest) ->
               nunits (free_link s p cur) y = nunits s y).
Proof.
  intros Hnd Hpath Hord Hsz Hp Hap Hins Hdeg.
  set (l0 := cur :: rest) in *.
  assert (In cur l0) as Hcur by now left.
  assert (forall a, In a l0 -> In (nxt s a) l0) as Hcl.
  { intros a Ha. destruct (path_next s _ _ _ a Hpath Ha) as [H | ->];
      assumption. }
  assert (forall a, In a l0 -> a <> p) as Hnp.
  { intros a Ha. specialize (Hap a Ha).
    destruct (Hsz a Ha) as (? & ? & ? & ?).
    destruct Hp as (? & ? & ? & ?). unfold apart, UNITSZ in *. lia. }
  assert (p <> cur) as Hpc by (intros ->; now apply (Hnp cur)).
  destruct (free_link_fields s p cur Hpc) as (Hap' & _ & Hnxt & Hnun).
  set (N := nxt s cur) in *.
  set (F := p + nunits s p * UNITSZ =? N) in *.
  set (B := cur + nunits s cur * UNITSZ =? p) in *.
  set (s' := free_link s p cur) in *.
  assert (In N l0) as HN by now apply Hcl.
  (* the shape of the ring after [cur] *)
  assert ((rest = [] /\ N = cur) \/
          exists rest', rest = N :: rest' /\ path s (nxt s N) rest' cur)
    as Hshape.
  { destruct Hpath as [_ Hpath]. fold N in Hpath.
    destruct rest as [| r rest']; [left; now split | right].
    destruct Hpath as [Hr Hpath]. subst r. now exists rest'. }
  set (mid := (if B then [] else [p]) ++
              (if F then [] else match rest with [] => [] | _ => [N] end)).
  set (l' := cur :: mid ++ tl rest).
  set (M' := fun x =>
    x = cur \/ (x = p /\ B = false) \/ (x <> cur /\ x = N /\ F = false) \/
    (In x l0 /\ x <> cur /\ x <> N)).
  assert (forall y, In y l' <-> M' y) as Hmem.
  { intros y. unfold l', mid, M', l0.
    destruct Hshape as [[-> HNc] | (rest' & -> & _)].
    - rewrite HNc. destruct B, F; cbn; intuition congruence.
    - apply NoDup_cons_iff in Hnd. destruct Hnd as [Hc1 Hnd].
      apply NoDup_cons_iff in Hnd. destruct Hnd as [HN1 _].
      assert (N <> cur) by (intros E; apply Hc1; rewrite <- E; now left).
      assert (In y rest' -> y <> cur /\ y <> N).
      { intros Hy. split; intros ->; [apply Hc1; now right | now apply HN1]. }
      destruct B, F; cbn; intuition congruence. }
  assert (forall z, In z (tl rest) -> nxt s' z = nxt s z /\
                                      nunits s' z = nunits s z) as Hframe.
  { intros z Hz.
    assert (In z rest) as Hz' by (destruct rest; [contradiction | now right]).
    assert (z <> cur).
    { apply NoDup_cons_iff in Hnd. intros ->. now apply Hnd. }
    assert (z <> p) by (apply Hnp; now right).
    rewrite Hnxt, Hnun.
    now rewrite (proj2 (Z.eqb_neq z cur)), (proj2 (Z.eqb_neq z p)). }
  exists l'. split; [split; [| split] | split; [| split]].
  - (* ring *)
    unfold ring, l'. rewrite Hap'. split.
    { destruct (Hsz cur Hcur) as (? & _). unfold NULL. lia. }
    split.
    + (* no node twice *)
      unfold mid.
      apply NoDup_cons_iff in Hnd. destruct Hnd as [Hc1 Hnd].
      assert (~ In p rest) by (intros Hin; apply (Hnp p); [now right | easy]).
      destruct Hshape as [[-> HNc] | (rest' & -> & _)]; cbn [tl].
      * destruct B, F; cbn; repeat constructor; cbn; intuition congruence.
      * apply NoDup_cons_iff in Hnd. destruct Hnd as [HN1 Hnd].
        assert (N <> cur) by (intros E; apply Hc1; rewrite <- E; now left).
        assert (~ In p rest') by (intros Hin; apply H; now right).
        assert (~ In cur rest') by (intros Hin; apply Hc1; now right).
        pose proof (Hnp N HN).
        destruct B, F; cbn; repeat constructor; cbn;
          try assumption; intuition congruence.
    + (* the links *)
      split; [reflexivity |].
      unfold mid. rewrite (Hnxt cur), Z.eqb_refl.
      pose proof (Hnxt p) as Hp'.
      rewrite (proj2 (Z.eqb_neq p cur) Hpc), Z.eqb_refl in Hp'.
      destruct Hshape as [[-> HNc] | (rest' & -> & Hrest)]; cbn [tl].
      * destruct B eqn:HB, F eqn:HF; cbn [app path];
          rewrite ?Hp'; try rewrite HNc; auto.
      * assert (path s' (nxt s N) rest' cur) as Hrest'.
        { apply (path_frame s s'); [| assumption].
          intros z Hz. now apply (Hframe z). }
        assert (nxt s' N = nxt s N) as HnN.
        { rewrite Hnxt.
          apply NoDup_cons_iff in Hnd. destruct Hnd as [Hc1 _].
          rewrite (proj2 (Z.eqb_neq N cur))
            by (intros E; apply Hc1; rewrite <- E; now left).
          now rewrite (proj2 (Z.eqb_neq N p)) by now apply Hnp. }
        destruct B eqn:HB, F eqn:HF; cbn [app path];
          rewrite ?Hp', ?HnN; auto.
  - (* usable blocks *)
    intros x Hx. apply Hmem in Hx.
    apply free_link_block_ok; auto.
    destruct Hx as [-> | [[-> _] | [(_ & -> & _) | (Hx & _)]]]; auto.
  - (* address order *)
    intros x y Hx Hy. apply Hmem in Hx, Hy.
    apply (in_order_free_link s l0 p cur); auto.
    intros [HNc HFc]. apply Hdeg. split; [| assumption].
    destruct Hshape as [[-> _] | (rest' & -> & _)]; [reflexivity |].
    exfalso. apply NoDup_cons_iff in Hnd. destruct Hnd as [Hc1 _].
    apply Hc1. fold N in HNc. rewrite <- HNc. now left.
  - (* bytes *)
    intros a.
    rewrite <- (covered_free_link s l0 p cur Hcl Hcur Hsz Hp Hap a).
    unfold covered. fold N F B s' M'.
    split; intros (x & Hx & Hr); exists x; (split; [| assumption]);
      now apply Hmem.
  - (* units *)
    unfold l', l0.
    change (cur :: mid ++ tl rest) with ((cur :: mid) ++ tl rest).
    rewrite total_units_app.
    rewrite (total_units_frame s s' (tl rest))
      by (intros z Hz; now apply (Hframe z)).
    pose proof (Hnun cur) as Hc'. rewrite Z.eqb_refl in Hc'.
    pose proof (Hnun p) as Hp'.
    rewrite (proj2 (Z.eqb_neq p cur) Hpc), Z.eqb_refl in Hp'.
    pose proof (Hnun N) as HN'.
    pose proof (Hsz cur Hcur) as (Hc0 & _ & Hc1 & Hc2).
    pose proof (Hsz N HN) as (HN0 & _ & HN1 & HN2).
    destruct Hp as (Hp0 & _ & Hp1 & Hp2).
    pose proof (Hap cur Hcur) as Hapc. pose proof (Hap N HN) as HapN.
    pose proof (Hnp N HN) as HNp.
    unfold apart in Hapc, HapN. unfold mid, total_units.
    destruct Hshape as [[-> HNc] | (rest' & -> & _)]; cbn [tl].
    + destruct (Z.eqb_spec (cur + nunits s cur * UNITSZ) p) as [HB | HB],
        (Z.eqb_spec (p + nunits s p * UNITSZ) N) as [HF | HF];
        subst B F; cbn [app map fold_right]; rewrite ?Hc', ?Hp';
        try (exfalso; apply Hdeg; split; [reflexivity | lia]);
        unfold UNITSZ in *; unwrap; lia.
    + assert (N <> cur).
      { apply NoDup_cons_iff in Hnd. destruct Hnd as [Hc3 _].
        intros E; apply Hc3; rewrite <- E; now left. }
      rewrite (proj2 (Z.eqb_neq N cur)), (proj2 (Z.eqb_neq N p)) in HN'
        by assumption.
      destruct (Z.eqb_spec (cur + nunits s cur * UNITSZ) p) as [HB | HB],
        (Z.eqb_spec (p + nunits s p * UNITSZ) N) as [HF | HF];
        subst B F; cbn [app map fold_right]; rewrite ?Hc', ?Hp', ?HN';
        unfold UNITSZ in *; unwrap; lia.
  - (* the other headers *)
    intros y Hyp Hyl. rewrite Hnun.
    rewrite (proj2 (Z.eqb_neq y cur))
      by (intros ->; apply Hyl; now left).
    now rewrite (proj2 (Z.eqb_neq y p)).
Qed.

Lemma well_formed_apart_ne s l p :
  (forall x, In x l -> block_ok s x) -> block_ok s p ->
  (forall x, In x l -> apart s p x) -> forall x, In x l -> x <> p.
Proof.
  intros Hsz Hp Hap x Hx. specialize (Hap x Hx).
  destruct (Hsz x Hx) as (? & ? & ? & ?). destruct Hp as (? & ? & ? & ?).
  unfold apart, UNITSZ in *. lia.
Qed.

(** [allocator_free] of a block that lies apart from every free block, in
    full: the result, the list after the call, its bytes and units, and
    the headers the call leaves alone. *)
Lemma free_well_formed_full s l p fuel :
  well_formed s l -> block_ok s p ->
  (forall x, In x l -> apart s p x) ->
  ~ (l = [p + nunits s p * UNITSZ]) ->
  (length l <= fuel)%nat ->
  exists s' l',
    allocator_free fuel s (p + UNITSZ) = Some s' /\
    well_formed s' l' /\
    (forall a, covered s' l' a <->
               covered s l a \/ p <= a < p + nunits s p * UNITSZ) /\
    total_units s' l' = total_units s l + nunits s p /\
    (forall y, y <> p -> ~ In y l -> nunits s' y = nunits s y).
Proof.
  intros (Hring & Hsz & Hord) Hp Hap Hdeg Hfuel.
  pose proof Hp as (Hp0 & Hpa & Hp1 & Hp2).
  unfold allocator_free.
  rewrite (proj2 (Z.eqb_neq (p + UNITSZ) NULL))
    by (unfold NULL, UNITSZ; lia).
  replace (p + UNITSZ - UNITSZ) with p by lia.
  destruct l as [| c l].
  - (* empty free list *)
    cbn [ring] in Hring. rewrite Hring, Z.eqb_refl. cbn [negb].
    exists (set_nxt (set_p s p) p p), [p]. split; [reflexivity |].
    split; [split; [| split] | split; [| split]].
    + cbn [ring a_p set_nxt set_p nxt path]. rewrite upd_same.
      repeat split; [unfold NULL; lia |].
      constructor; [intros [] | constructor].
    + intros x [<- | []]. exact Hp.
    + intros x y [<- | []] [<- | []].
      cbn [nxt nunits set_nxt set_p]. rewrite upd_same. lia.
    + intros a. unfold covered. cbn [nunits set_nxt set_p]. split.
      * intros (x & [<- | []] & Hx). now right.
      * intros [(x & [] & _) | Ha]. exists p. split; [now left | assumption].
    + unfold total_units. cbn. lia.
    + intros y _ _. reflexivity.
  - (* a ring of at least one node *)
    set (l0 := c :: l) in *.
    assert (l0 <> []) as Hne by discriminate.
    destruct (ring_cursor s l0 Hne Hring) as [Hc Hnn].
    rewrite (proj2 (Z.eqb_neq _ _) Hnn). cbn [negb].
    destruct (ring_closed_of_ring s l0 Hne Hring) as [Hk Hcl].
    pose proof Hring as (_ & Hnd & Hpath).
    assert (forall j : nat, In (Nat.iter j (nxt s) (a_p s)) l0) as Hin.
    { intros j. now apply (path_iter_in s l0 _ (a_p s)). }
    destruct (free_walk_terminates s p (a_p s) (length l0) fuel Hk Hcl)
      as [cur Hw]; [| assumption |].
    { intros j. now apply (well_formed_apart_ne s l0 p Hsz Hp Hap). }
    rewrite Hw. apply free_walk_some in Hw. destruct Hw as [Hins [j ->]].
    set (cur := Nat.iter j (nxt s) (a_p s)) in *.
    destruct (path_rotate s l0 (a_p s) cur Hpath (Hin j))
      as (l1 & l2 & Hl & Hrot).
    assert (Permutation l0 (cur :: l2 ++ l1)) as Hperm.
    { rewrite Hl. apply (Permutation_app_comm l1 (cur :: l2)). }
    assert (forall a, In a (cur :: l2 ++ l1) <-> In a l0) as Hsame.
    { intros a. split; apply Permutation_in;
        [now apply Permutation_sym | assumption]. }
    destruct (free_link_well_formed s cur (l2 ++ l1) p)
      as (l' & Hwf & Hcov & Htot & Hrest).
    + now apply (Permutation_NoDup Hperm).
    + assumption.
    + intros x y Hx Hy. apply Hord; now apply Hsame.
    + intros a Ha. apply Hsz. now apply Hsame.
    + assumption.
    + intros a Ha. apply Hap. now apply Hsame.
    + assumption.
    + intros [Hr Hadj]. apply Hdeg. rewrite Hl.
      destruct l2; [| discriminate]. cbn [app] in Hr. subst l1.
      cbn [app]. now rewrite Hadj.
    + exists (free_link s p cur), l'. split; [reflexivity |].
      split; [assumption |]. split; [| split].
      * intros a. rewrite Hcov. unfold covered. split.
        -- intros [(x & Hx & Hr) | Ha]; [left | now right].
           exists x. split; [now apply Hsame | assumption].
        -- intros [(x & Hx & Hr) | Ha]; [left | now right].
           exists x. split; [now apply Hsame | assumption].
      * rewrite Htot. now rewrite (total_units_perm s _ _ Hperm).
      * intros y Hyp Hyl. apply Hrest; [assumption |].
        intros Hin'. apply Hyl. now apply Hsame.
Qed.

(** X7: Freeing a block that lies apart from every free block keeps the free
    list a well-formed ring, adds exactly the bytes of the block to it and
    exactly its units; one lap of fuel is enough.  Excluded is the case the
    code does not handle: a free list of one node that starts exactly
    where the freed block ends. *)
Theorem free_keeps_well_formed s l p fuel :
  well_formed s l -> block_ok s p ->
  (forall x, In x l -> apart s p x) ->
  ~ (l = [p + nunits s p * UNITSZ]) ->
  (length l <= fuel)%nat ->
  exists s' l',
    allocator_free fuel s (p + UNITSZ) = Some s' /\
    well_formed s' l' /\
    (forall a, covered s' l' a <->
               covered s l a \/ p <= a < p + nunits s p * UNITSZ) /\
    total_units s' l' = total_units s l + nunits s p.
Proof.
  intros Hwf Hp Hap Hdeg Hfuel.
  destruct (free_well_formed_full s l p fuel Hwf Hp Hap Hdeg Hfuel)
    as (s' & l' & H1 & H2 & H3 & H4 & _).
  now exists s', l'.
Qed.

Lemma two_free_blocks_well_formed : well_formed two_free_blocks [4096; 4144].
Proof.
  split; [exact two_free_blocks_ring |]. split.
  - intros x [<- | [<- | []]]; unfold block_ok; now vm_compute.
  - intros x y [<- | [<- | []]] [<- | [<- | []]]; vm_compute;
      intuition discriminate.
Qed.

Lemma free_keeps_well_formed_witness :
  exists s' l',
    allocator_free 2 two_free_blocks (4112 + UNITSZ) = Some s' /\
    well_formed s' l' /\
    (forall a, covered s' l' a <->
               covered two_free_blocks [4096; 4144] a \/
               4112 <= a < 4112 + nunits two_free_blocks 4112 * UNITSZ) /\
    total_units s' l' =
    total_units two_free_blocks [4096; 4144] + nunits two_free_blocks 4112.
Proof.
  apply (free_keeps_well_formed two_free_blocks [4096; 4144] 4112 2%nat).
  - exact two_free_blocks_well_formed.
  - unfold block_ok. now vm_compute.
  - intros x [<- | [<- | []]]; [left | right]; now vm_compute.
  - discriminate.
  - cbn. lia.
Defined.

(** X8: Freeing a block that is already on the free list: the insertion walk
    finds no place for it and never ends, whatever the fuel. *)
Theorem double_free_hangs s l p fuel :
  well_formed s l -> In p l ->
  allocator_free fuel s (p + UNITSZ) = None.
Proof.
  intros (Hring & Hsz & Hord) Hp.
  assert (l <> []) as Hne by (intros ->; contradiction).
  destruct (ring_cursor s l Hne Hring) as [Hc Hnn].
  destruct (Hsz p Hp) as (Hp0 & _).
  unfold allocator_free.
  rewrite (proj2 (Z.eqb_neq (p + UNITSZ) NULL))
    by (unfold NULL, UNITSZ; lia).
  replace (p + UNITSZ - UNITSZ) with p by lia.
  rewrite (proj2 (Z.eqb_neq _ _) Hnn). cbn [negb].
  destruct (free_walk fuel s p (a_p s)) as [cur |] eqn:Hw; [| reflexivity].
  exfalso. apply free_walk_some in Hw. destruct Hw as [Hins [j ->]].
  assert (In (Nat.iter j (nxt s) (a_p s)) l) as Hin.
  { destruct l as [| c l]; [contradiction |].
    destruct Hring as (_ & _ & Hpath).
    now apply (path_iter_in s (c :: l) _ (a_p s)). }
  specialize (Hord _ p Hin Hp). unfold insertion_point in Hins. lia.
Qed.

Lemma double_free_hangs_witness :
  allocator_free 7 two_free_blocks (4144 + UNITSZ) = None.
Proof.
  apply (double_free_hangs two_free_blocks [4096; 4144] 4144 7%nat).
  - exact two_free_blocks_well_formed.
  - right. now left.
Defined.

(** ** allocator_alloc keeps the free list in order *)

(** The blocks of an address-ordered list lie apart, with a gap. *)
Lemma in_order_gap s l x y :
  in_order s l -> In x l -> In y l -> x < y ->
  x + nunits s x * UNITSZ < y.
Proof.
  intros Hord Hx Hy Hlt. specialize (Hord x y Hx Hy).
  destruct (Z_lt_le_dec x (nxt s x)); lia.
Qed.

Lemma total_units_change s s' c : forall l,
  NoDup l -> In c l ->
  (forall x, In x l -> x <> c -> nunits s' x = nunits s x) ->
  total_units s' l = total_units s l - nunits s c + nunits s' c.
Proof.
  unfold total_units.
  induction l as [| b l IH]; intros Hnd Hc Hsame; [contradiction |].
  apply NoDup_cons_iff in Hnd. destruct Hnd as [Hb Hnd].
  cbn [map fold_right]. destruct Hc as [-> | Hc].
  - pose proof (total_units_frame s s' l) as Hf. unfold total_units in Hf.
    rewrite Hf; [lia |].
    intros a Ha. apply Hsame; [now right |]. intros ->. contradiction.
  - rewrite IH; [| assumption | assumption |].
    + rewrite (Hsame b); [lia | now left |]. intros ->. contradiction.
    + intros x Hx. apply Hsame. now right.
Qed.

(** A one-node cycle inside a ring is the whole ring. *)
Lemma ring_self_loop s prv rest :
  NoDup (prv :: rest) -> path s prv (prv :: rest) prv ->
  nxt s (nxt s prv) = nxt s prv -> rest = [] /\ nxt s prv = prv.
Proof.
  intros Hnd [_ Hp] Hself.
  destruct rest as [| c rest]; [split; [reflexivity | assumption] |].
  exfalso. destruct Hp as [Hc Hp]. rewrite <- Hc in Hp, Hself.
  rewrite Hself in Hp.
  apply NoDup_cons_iff in Hnd. destruct Hnd as [H1 Hnd].
  apply NoDup_cons_iff in Hnd. destruct Hnd as [H2 _].
  destruct rest as [| d rest].
  - apply H1. left. exact Hp.
  - destruct Hp as [Hd _]. apply H2. now left.
Qed.

Lemma alloc_exit_well_formed s prv rest need s' r :
  NoDup (prv :: rest) -> path s prv (prv :: rest) prv ->
  in_order s (prv :: rest) ->
  (forall a, In a (prv :: rest) -> block_ok s a) ->
  1 <= need ->
  alloc_exit s need prv (nxt s prv) s' r -> r <> NULL ->
  exists l',
    well_formed s' l' /\
    block_ok s' (r - UNITSZ) /\ nunits s' (r - UNITSZ) = need /\
    (forall x, In x l' -> apart s' (r - UNITSZ) x) /\
    l' <> [r - UNITSZ + need * UNITSZ] /\
    (forall a, covered s (prv :: rest) a <->
               covered s' l' a \/
               r - UNITSZ <= a < r - UNITSZ + need * UNITSZ) /\
    total_units s (prv :: rest) = total_units s' l' + need /\
    (length l' <= length (prv :: rest) <= S (length l'))%nat /\
    (forall x, In x l' -> In x (prv :: rest) /\ nunits s' x <= nunits s x) /\
    (forall y, (forall x, In x (prv :: rest) ->
                  ~ x <= y < x + nunits s x * UNITSZ) ->
               nunits s' y = nunits s y).
Proof.
  intros Hnd Hpath Hord Hsz Hneed Hex Hr.
  set (l0 := prv :: rest) in *.
  set (cur := nxt s prv) in *.
  assert (In prv l0) as Hprv by now left.
  assert (forall a, In a l0 -> In (nxt s a) l0) as Hcl.
  { intros a Ha. destruct (path_next s _ _ _ a Hpath Ha) as [H | ->];
      assumption. }
  assert (In cur l0) as Hcur by now apply Hcl.
  pose proof (Hsz cur Hcur) as (Hc0 & Hca & Hc1 & Hc2).
  inversion Hex as [Hlt Hc | He Hn | He Hn | Hgt]; subst s' r;
    [contradiction | | |].
  - (* an exact match inside a longer ring *)
    replace (cur + UNITSZ - UNITSZ) with cur by lia.
    assert (cur <> prv) as Hcp by (intros E; apply Hn; now rewrite E).
    assert (exists rest', rest = cur :: rest' /\
                          path s (nxt s cur) rest' prv) as (rest' & -> & Hp').
    { destruct Hpath as [_ Hp]. fold cur in Hp.
      destruct rest as [| c rest'];
        [exfalso; apply Hcp; exact Hp |].
      destruct Hp as [-> Hp]. now exists rest'. }
    pose proof Hnd as Hnd0.
    apply NoDup_cons_iff in Hnd. destruct Hnd as [H1 Hnd].
    apply NoDup_cons_iff in Hnd. destruct Hnd as [H2 Hnd].
    assert (forall a, In a rest' -> a <> prv /\ a <> cur /\ In a l0) as Hin.
    { intros a Ha. repeat split.
      - intros ->. apply H1. now right.
      - intros ->. contradiction.
      - right. now right. }
    set (s' := set_p (set_nxt s prv (nxt s cur)) prv).
    assert (forall x, x <> prv -> nxt s' x = nxt s x) as Hnx.
    { intros x Hx. unfold s'. cbn [nxt set_p set_nxt].
      now apply upd_other. }
    assert (nxt s' prv = nxt s cur) as Hnp.
    { unfold s'. cbn [nxt set_p set_nxt]. apply upd_same. }
    exists (prv :: rest'). split; [split; [| split] |].
    + split; [| split].
      * change (a_p s') with prv. destruct (Hsz prv Hprv) as (? & _).
        unfold NULL. lia.
      * constructor; [| assumption]. intros Hin'. apply H1. now right.
      * change (a_p s') with prv. split; [reflexivity |]. rewrite Hnp.
        apply (path_frame s s'); [| assumption].
        intros a Ha. apply Hnx. now apply Hin.
    + intros x Hx. apply (Hsz x).
      destruct Hx as [<- | Hx]; [assumption | now apply Hin].
    + intros x y Hx Hy. fold s'.
      assert (In x l0 /\ x <> cur) as [Hx0 Hxc].
      { destruct Hx as [<- | Hx]; [split; [assumption | congruence] |].
        split; now apply Hin. }
      assert (In y l0 /\ y <> cur) as [Hy0 Hyc].
      { destruct Hy as [<- | Hy]; [split; [assumption | congruence] |].
        split; now apply Hin. }
      change (nunits s' x) with (nunits s x).
      destruct (Z.eq_dec x prv) as [-> | Hxp].
      * rewrite Hnp.
        pose proof (Hord prv y Hprv Hy0) as O1.
        pose proof (Hord cur y Hcur Hy0) as O2.
        pose proof (Hord prv cur Hprv Hcur) as O3.
        pose proof (Hord cur prv Hcur Hprv) as O4.
        pose proof (Hord cur (nxt s cur) Hcur (Hcl _ Hcur)) as O5.
        pose proof (Hord prv (nxt s cur) Hprv (Hcl _ Hcur)) as O6.
        fold cur in O1, O3, O6. unfold UNITSZ in *.
        destruct (Z_lt_le_dec prv cur), (Z_lt_le_dec cur (nxt s cur));
          use_directions; lia.
      * rewrite (Hnx x Hxp). exact (Hord x y Hx0 Hy0).
    + split; [exact (Hsz cur Hcur) |]. split; [exact He |].
      split; [| split; [| split; [| split]]].
      * intros x Hx.
        assert (In x l0 /\ x <> cur) as [Hx0 Hxc].
        { destruct Hx as [<- | Hx]; [split; [assumption | congruence] |].
          split; now apply Hin. }
        unfold apart. change (nunits s') with (nunits s).
        destruct (Z_lt_le_dec x cur).
        -- left. pose proof (in_order_gap s l0 x cur Hord Hx0 Hcur).
           unfold UNITSZ in *. lia.
        -- right. pose proof (in_order_gap s l0 cur x Hord Hcur Hx0).
           unfold UNITSZ in *. lia.
      * intros E. injection E as E1 E2. subst rest'.
        cbn [path] in Hp'.
        pose proof (Hord cur prv Hcur Hprv) as O. rewrite Hp' in O.
        unfold UNITSZ in *. lia.
      * intros a. unfold covered.
        change (nunits s') with (nunits s). split.
        -- intros (x & Hx & Hrange).
           destruct (Z.eq_dec x cur) as [-> | Hxc]; [right; lia | left].
           exists x. split; [| assumption].
           destruct Hx as [<- | [<- | Hx]];
             [now left | contradiction | now right].
        -- intros [(x & Hx & Hrange) | Hrange].
           ++ exists x. split; [| assumption].
              destruct Hx as [<- | Hx]; [assumption | now apply Hin].
           ++ exists cur. split; [assumption | lia].
      * unfold total_units, l0. cbn [map fold_right].
        change (nunits s') with (nunits s). lia.
      * split; [unfold l0; cbn [length]; lia |]. split.
        -- intros x Hx. change (nunits s' x) with (nunits s x).
           split; [| lia].
           destruct Hx as [<- | Hx]; [assumption | now apply Hin].
        -- intros y _. reflexivity.
  - (* the last block, taken whole *)
    replace (cur + UNITSZ - UNITSZ) with cur by lia.
    destruct (ring_self_loop s prv rest Hnd Hpath) as [-> Hself];
      [now symmetry |].
    fold cur in Hself.
    exists []. split; [split; [| split] |].
    + reflexivity.
    + intros x [].
    + intros x y [].
    + split; [exact (Hsz cur Hcur) |]. split; [exact He |].
      split; [intros x [] |]. split; [discriminate |].
      split; [| split].
      * intros a. unfold covered, l0. rewrite <- He, Hself. split.
        -- intros (x & [<- | []] & Hrange). now right.
        -- intros [(x & [] & _) | Hrange]. exists prv. split; [now left |].
           assumption.
      * unfold total_units, l0. cbn [map fold_right].
        rewrite <- He, Hself. lia.
      * split; [unfold l0; cbn [length]; lia |]. split.
        -- intros x [].
        -- intros y _. reflexivity.
  - (* a split: the tail of the block is handed out *)
    assert (wrap (nunits s cur - need) = nunits s cur - need) as HR.
    { apply wrap_small. unfold UNITSZ in *. lia. }
    rewrite HR.
    set (R := nunits s cur - need) in *.
    set (b := cur + R * UNITSZ).
    replace (b + UNITSZ - UNITSZ) with b by lia.
    set (s' := set_p (set_nunits (set_nunits s cur R) b need) prv).
    assert (b <> cur) as Hbc by (unfold b, UNITSZ; lia).
    assert (forall x, In x l0 -> x <> b) as Hnb.
    { intros x Hx ->.
      pose proof (in_order_gap s l0 cur b Hord Hcur Hx).
      unfold b, UNITSZ in *. lia. }
    assert (nunits s' b = need) as Hb1.
    { unfold s'. cbn [nunits set_p set_nunits]. apply upd_same. }
    assert (nunits s' cur = R) as Hc'.
    { unfold s'. cbn [nunits set_p set_nunits].
      rewrite upd_other by congruence. apply upd_same. }
    assert (forall x, x <> cur -> x <> b -> nunits s' x = nunits s x) as Hnu.
    { intros x Hx1 Hx2. unfold s'. cbn [nunits set_p set_nunits].
      now rewrite !upd_other. }
    assert (forall x, In x l0 -> nunits s' x <= nunits s x /\
                                 1 <= nunits s' x) as Hle.
    { intros x Hx. destruct (Z.eq_dec x cur) as [-> | Hxc].
      - rewrite Hc'. unfold R. lia.
      - rewrite Hnu; [| assumption | now apply Hnb].
        destruct (Hsz x Hx) as (_ & _ & ? & _). lia. }
    exists l0. split; [split; [| split] |].
    + split; [| split].
      * change (a_p s') with prv. destruct (Hsz prv Hprv) as (? & _).
        unfold NULL. lia.
      * assumption.
      * change (a_p s') with prv.
        apply (path_frame s s'); [intros; reflexivity | exact Hpath].
    + intros x Hx. destruct (Hsz x Hx) as (? & ? & ? & ?).
      destruct (Hle x Hx). unfold block_ok, UNITSZ in *.
      repeat split; try assumption; lia.
    + intros x y Hx Hy. change (nxt s' x) with (nxt s x).
      pose proof (Hord x y Hx Hy) as O. destruct (Hle x Hx).
      unfold UNITSZ in *. lia.
    + assert (block_ok s' b) as Hbok.
      { unfold block_ok. rewrite Hb1. unfold b, R, ALIGNOF_SIZE_T, UNITSZ in *.
        repeat split; try lia.
        replace (cur + (nunits s cur - need) * 16)
          with (cur + ((nunits s cur - need) * 2) * 8) by lia.
        now rewrite Z.mod_add by lia. }
      split; [assumption |]. split; [assumption |].
      split; [| split; [| split; [| split]]].
      * intros x Hx. unfold apart. rewrite Hb1.
        destruct (Z.eq_dec x cur) as [-> | Hxc].
        -- left. rewrite Hc'. unfold b. lia.
        -- rewrite Hnu; [| assumption | now apply Hnb].
           destruct (Z_lt_le_dec x cur).
           ++ left. pose proof (in_order_gap s l0 x cur Hord Hx Hcur).
              unfold b, UNITSZ in *. lia.
           ++ right. pose proof (in_order_gap s l0 cur x Hord Hcur Hx).
              unfold b, R, UNITSZ in *. lia.
      * intros E. unfold l0 in E. injection E as E1 E2. subst rest.
        destruct Hcur as [E | []].
        unfold b, R, UNITSZ in *. lia.
      * intros a. unfold covered. split.
        -- intros (x & Hx & Hrange).
           destruct (Z.eq_dec x cur) as [-> | Hxc].
           ++ destruct (Z_lt_le_dec a b).
              ** left. exists cur. split; [assumption |]. rewrite Hc'.
                 unfold b in *. lia.
              ** right. unfold b, R, UNITSZ in *. lia.
           ++ left. exists x. split; [assumption |].
              rewrite Hnu; [assumption | assumption | now apply Hnb].
        -- intros [(x & Hx & Hrange) | Hrange].
           ++ exists x. split; [assumption |]. destruct (Hle x Hx).
              unfold UNITSZ in *. lia.
           ++ exists cur. split; [assumption |].
              unfold b, R, UNITSZ in *. lia.
      * rewrite (total_units_change s s' cur l0 Hnd Hcur).
        -- rewrite Hc'. unfold R. lia.
        -- intros x Hx Hxc. apply Hnu; [assumption | now apply Hnb].
      * split; [lia |]. split.
        -- intros x Hx. split; [assumption | now apply Hle].
        -- intros y Hy. specialize (Hy cur Hcur).
           apply Hnu; intros ->; apply Hy; unfold b, R, UNITSZ in *; lia.
Qed.

Lemma well_formed_nonempty s l : well_formed s l -> a_p s <> NULL -> l <> [].
Proof. intros (Hr & _) Hp ->. now apply Hp. Qed.

Lemma rotate_facts s l x l1 l2 :
  well_formed s l -> l = l1 ++ x :: l2 ->
  NoDup (x :: l2 ++ l1) /\ in_order s (x :: l2 ++ l1) /\
  (forall a, In a (x :: l2 ++ l1) -> block_ok s a) /\
  (forall a, In a (x :: l2 ++ l1) <-> In a l) /\
  Permutation l (x :: l2 ++ l1).
Proof.
  intros (Hring & Hsz & Hord) Hl.
  assert (Permutation l (x :: l2 ++ l1)) as Hperm.
  { rewrite Hl. apply (Permutation_app_comm l1 (x :: l2)). }
  assert (forall a, In a (x :: l2 ++ l1) <-> In a l) as Hsame.
  { intros a. split; apply Permutation_in;
      [now apply Permutation_sym | assumption]. }
  assert (NoDup l) as Hnd.
  { destruct l as [| c l]; [constructor | now destruct Hring as (_ & ? & _)]. }
  split; [now apply (Permutation_NoDup Hperm) |].
  split; [intros a b Ha Hb; apply Hord; now apply Hsame |].
  split; [intros a Ha; apply Hsz; now apply Hsame |].
  split; assumption.
Qed.

(** A successful [allocator_alloc] on a well-formed free list, in full:
    the list stays well formed, the block handed out is a usable block of
    [units_needed n] units that lies apart from every block left on the
    list, and the list loses exactly the bytes and the units of that
    block. *)
Lemma alloc_well_formed_full fuel s l n s' r :
  0 <= n -> well_formed s l ->
  allocator_alloc fuel s n = Some (s', r) -> r <> NULL ->
  exists l',
    well_formed s' l' /\
    block_ok s' (r - UNITSZ) /\ nunits s' (r - UNITSZ) = units_needed n /\
    (forall x, In x l' -> apart s' (r - UNITSZ) x) /\
    l' <> [r - UNITSZ + units_needed n * UNITSZ] /\
    (forall a, covered s l a <->
               covered s' l' a \/
               r - UNITSZ <= a < r - UNITSZ + units_needed n * UNITSZ) /\
    total_units s l = total_units s' l' + units_needed n /\
    (length l' <= length l <= S (length l'))%nat /\
    (forall x, In x l' -> In x l /\ nunits s' x <= nunits s x) /\
    (forall y, (forall x, In x l -> ~ x <= y < x + nunits s x * UNITSZ) ->
               nunits s' y = nunits s y).
Proof.
  intros Hn Hwf H Hr. apply allocator_alloc_inv in H; [| assumption].
  destruct H as [(_ & Hnull & _) | (_ & _ & Hp & prv & cur & Hw & Hex)];
    [contradiction |].
  pose proof (well_formed_nonempty s l Hwf Hp) as Hne.
  pose proof Hwf as (Hring & Hsz & Hord).
  destruct l as [| c l]; [contradiction |].
  set (l0 := c :: l) in *.
  pose proof Hring as (_ & Hnd & Hpath).
  destruct (ring_cursor s l0 Hne Hring) as [Hc _].
  destruct (alloc_walk_iter _ _ _ _ Hw) as (i & Hprv & Hcur & _).
  change (Nat.iter (S i) (nxt s) (a_p s))
    with (nxt s (Nat.iter i (nxt s) (a_p s))) in Hcur.
  rewrite <- Hprv in Hcur. subst cur.
  assert (In prv l0) as Hin.
  { rewrite Hprv. now apply (path_iter_in s l0 _ (a_p s)). }
  destruct (path_rotate s l0 (a_p s) prv Hpath Hin) as (l1 & l2 & Hl & Hrot).
  destruct (rotate_facts s l0 prv l1 l2 Hwf Hl)
    as (Hnd' & Hord' & Hsz' & Hsame & Hperm).
  pose proof (units_needed_pos n) as Hneed.
  destruct (alloc_exit_well_formed s prv (l2 ++ l1) (units_needed n) s' r
              Hnd' Hrot Hord' Hsz' ltac:(lia) Hex Hr)
    as (l' & H1 & H2 & H3 & H4 & H5 & H6 & H7 & H8 & H9 & H10).
  exists l'. repeat (split; [assumption |]).
  split; [| split; [| split; [| split]]].
  - intros a. rewrite <- H6. unfold covered.
    split; intros (x & Hx & Hrange); exists x; (split; [| assumption]);
      now apply Hsame.
  - now rewrite (total_units_perm s _ _ Hperm).
  - rewrite (Permutation_length Hperm). exact H8.
  - intros x Hx. destruct (H9 x Hx) as [Hx0 Hx1].
    split; [now apply Hsame | assumption].
  - intros y Hy. apply H10. intros x Hx. apply Hy. now apply Hsame.
Qed.

(** X5: A successful [alloc] takes its block out of the free list and nothing
    else: the list stays a well-formed ring, the block handed out is
    usable, has [units_needed n] units and overlaps no block left on the
    list, and the free bytes before the call are exactly the free bytes
    after it together with the bytes of the block. *)
Theorem alloc_keeps_well_formed fuel s l n s' r :
  0 <= n -> well_formed s l ->
  allocator_alloc fuel s n = Some (s', r) -> r <> NULL ->
  exists l',
    well_formed s' l' /\
    block_ok s' (r - UNITSZ) /\ nunits s' (r - UNITSZ) = units_needed n /\
    (forall x, In x l' -> apart s' (r - UNITSZ) x) /\
    (forall a, covered s l a <->
               covered s' l' a \/
               r - UNITSZ <= a < r - UNITSZ + units_needed n * UNITSZ) /\
    total_units s l = total_units s' l' + units_needed n.
Proof.
  intros Hn Hwf H Hr.
  destruct (alloc_well_formed_full fuel s l n s' r Hn Hwf H Hr)
    as (l' & H1 & H2 & H3 & H4 & _ & H6 & H7 & _).
  exists l'. repeat (split; [assumption |]). assumption.
Qed.

Lemma alloc_keeps_well_formed_witness :
  exists l',
    well_formed (fst alloc_from_two) l' /\
    block_ok (fst alloc_from_two) (snd alloc_from_two - UNITSZ) /\
    nunits (fst alloc_from_two) (snd alloc_from_two - UNITSZ)
    = units_needed UNITSZ /\
    (forall x, In x l' ->
       apart (fst alloc_from_two) (snd alloc_from_two - UNITSZ) x) /\
    (forall a, covered two_free_blocks [4096; 4144] a <->
               covered (fst alloc_from_two) l' a \/
               snd alloc_from_two - UNITSZ <= a <
               snd alloc_from_two - UNITSZ + units_needed UNITSZ * UNITSZ) /\
    total_units two_free_blocks [4096; 4144]
    = total_units (fst alloc_from_two) l' + units_needed UNITSZ.
Proof.
  apply (alloc_keeps_well_formed 2%nat two_free_blocks [4096; 4144] UNITSZ).
  - unfold UNITSZ. lia.
  - exact two_free_blocks_well_formed.
  - reflexivity.
  - now vm_compute.
Defined.

(** X9: [free(alloc(n))] gives the free list its bytes back: after a
    successful [alloc] and the [free] of its result the free list is a
    well-formed ring again and holds exactly the bytes and the units it
    held before, with no more fuel than one lap of the first list. *)
Theorem alloc_free_round_trip fuel s l n s1 r :
  0 <= n -> well_formed s l -> (length l <= fuel)%nat ->
  allocator_alloc fuel s n = Some (s1, r) -> r <> NULL ->
  exists s2 l2,
    allocator_free fuel s1 r = Some s2 /\
    well_formed s2 l2 /\
    (forall a, covered s2 l2 a <-> covered s l a) /\
    total_units s2 l2 = total_units s l.
Proof.
  intros Hn Hwf Hfuel H Hr.
  destruct (alloc_well_formed_full fuel s l n s1 r Hn Hwf H Hr)
    as (l' & H1 & H2 & H3 & H4 & H5 & H6 & H7 & H8 & _).
  destruct (free_well_formed_full s1 l' (r - UNITSZ) fuel H1 H2 H4)
    as (s2 & l2 & Hf & Hwf2 & Hcov & Htot & _).
  - now rewrite H3.
  - lia.
  - replace (r - UNITSZ + UNITSZ) with r in Hf by lia.
    exists s2, l2. split; [assumption |]. split; [assumption |].
    rewrite H3 in Hcov, Htot. split; [| lia].
    intros a. rewrite Hcov. symmetry. apply H6.
Qed.

Lemma alloc_free_round_trip_witness :
  exists s2 l2,
    allocator_free 2 (fst alloc_from_two) (snd alloc_from_two) = Some s2 /\
    well_formed s2 l2 /\
    (forall a, covered s2 l2 a <-> covered two_free_blocks [4096; 4144] a) /\
    total_units s2 l2 = total_units two_free_blocks [4096; 4144].
Proof.
  apply (alloc_free_round_trip 2%nat two_free_blocks [4096; 4144] UNITSZ).
  - unfold UNITSZ. lia.
  - exact two_free_blocks_well_formed.
  - cbn. lia.
  - reflexivity.
  - now vm_compute.
Defined.

(** ** allocator_add on a free list that is not empty *)

Lemma well_formed_frame s s' l :
  a_p s' = a_p s ->
  (forall x, In x l -> nxt s' x = nxt s x /\ nunits s' x = nunits s x) ->
  well_formed s l -> well_formed s' l.
Proof.
  intros Hp Hsame (Hring & Hsz & Hord). split; [| split].
  - destruct l as [| c l]; cbn [ring] in *; [congruence |].
    destruct Hring as (H1 & H2 & H3). rewrite Hp.
    split; [assumption |]. split; [assumption |].
    apply (path_frame s s'); [| assumption].
    intros a Ha. now apply Hsame.
  - intros x Hx. destruct (Hsame x Hx) as [_ Hn].
    unfold block_ok. rewrite Hn. now apply Hsz.
  - intros x y Hx Hy. destruct (Hsame x Hx) as [-> ->]. now apply Hord.
Qed.

(** X11: Adding a region that overlaps no free block: the aligned, whole-unit
    part of the region joins the free list, which stays a well-formed
    ring -- merged with a free block that touches it on either side.
    Excluded is the case [allocator_free] does not handle: a free list of
    one node that starts exactly where the new block ends. *)
Theorem add_keeps_well_formed s l base nbytes fuel :
  well_formed s l ->
  0 < base -> base + nbytes <= 2 ^ 64 ->
  aln_offset base ALIGNOF_SIZE_T + UNITSZ < nbytes ->
  (forall x, In x l ->
     x + nunits s x * UNITSZ <= base \/ base + nbytes <= x) ->
  l <> [base + aln_offset base ALIGNOF_SIZE_T +
        (nbytes - aln_offset base ALIGNOF_SIZE_T) / UNITSZ * UNITSZ] ->
  (length l <= fuel)%nat ->
  exists s' l',
    allocator_add fuel s base nbytes = Some s' /\
    well_formed s' l' /\
    (forall a, covered s' l' a <->
               covered s l a \/
               base + aln_offset base ALIGNOF_SIZE_T <= a <
               base + aln_offset base ALIGNOF_SIZE_T +
               (nbytes - aln_offset base ALIGNOF_SIZE_T) / UNITSZ * UNITSZ) /\
    total_units s' l' =
    total_units s l + (nbytes - aln_offset base ALIGNOF_SIZE_T) / UNITSZ.
Proof.
  intros Hwf Hb0 Hb1 Hsize Hap Hdeg Hfuel.
  destruct (aln_offset_spec base ALIGNOF_SIZE_T) as [Hi Ha];
    [unfold ALIGNOF_SIZE_T; lia |].
  set (inc := aln_offset base ALIGNOF_SIZE_T) in *.
  set (n := (nbytes - inc) / UNITSZ) in *.
  set (p := base + inc) in *.
  assert (1 <= n /\ n * UNITSZ <= nbytes - inc) as [Hn1 Hn2].
  { unfold n, UNITSZ in *.
    pose proof (Z.div_mod (nbytes - inc) 16 ltac:(lia)).
    pose proof (Z.mod_pos_bound (nbytes - inc) 16 ltac:(lia)). lia. }
  unfold allocator_add. fold inc.
  rewrite (wrap_small (nbytes - inc))
    by (unfold ALIGNOF_SIZE_T, UNITSZ in *; lia).
  rewrite (wrap_small (base + inc))
    by (unfold ALIGNOF_SIZE_T, UNITSZ in *; lia).
  fold n p.
  rewrite (proj2 (Z.ltb_lt _ _) Hsize).
  rewrite (proj2 (Z.eqb_neq n 0)) by lia. cbn [andb negb].
  set (s1 := set_nunits s p n).
  pose proof Hwf as (_ & Hsz & _).
  assert (forall x, In x l -> x <> p) as Hnp.
  { intros x Hx ->. destruct (Hsz p Hx) as (_ & _ & ? & _).
    specialize (Hap p Hx). unfold p, ALIGNOF_SIZE_T, UNITSZ in *. lia. }
  assert (forall x, In x l -> nunits s1 x = nunits s x) as Hnu.
  { intros x Hx. unfold s1. cbn [nunits set_nunits].
    apply upd_other. now apply Hnp. }
  assert (nunits s1 p = n) as Hpn.
  { unfold s1. cbn [nunits set_nunits]. apply upd_same. }
  assert (well_formed s1 l) as Hwf1.
  { apply (well_formed_frame s s1); [reflexivity | | assumption].
    intros x Hx. split; [reflexivity | now apply Hnu]. }
  destruct (free_well_formed_full s1 l p fuel Hwf1)
    as (s' & l' & Hf & Hwf' & Hcov & Htot & _).
  - unfold block_ok. rewrite Hpn. unfold p.
    repeat split; try assumption; unfold ALIGNOF_SIZE_T, UNITSZ in *; lia.
  - intros x Hx. unfold apart. rewrite Hpn, (Hnu x Hx).
    specialize (Hap x Hx). unfold p, ALIGNOF_SIZE_T, UNITSZ in *. lia.
  - now rewrite Hpn.
  - assumption.
  - exists s', l'. split; [assumption |]. split; [assumption |].
    rewrite Hpn in Hcov, Htot. split.
    + intros a. rewrite Hcov. unfold covered.
      split; (intros [(x & Hx & Hrange) | Hrange]; [left | now right]);
        exists x; (split; [assumption |]).
      * now rewrite <- (Hnu x Hx).
      * now rewrite (Hnu x Hx).
    + rewrite Htot. f_equal. unfold total_units. apply (total_units_frame s s1).
      assumption.
Qed.

Lemma add_keeps_well_formed_witness :
  exists s' l',
    allocator_add 2 two_free_blocks 8196 100 = Some s' /\
    well_formed s' l' /\
    (forall a, covered s' l' a <->
               covered two_free_blocks [4096; 4144] a \/
               8196 + aln_offset 8196 ALIGNOF_SIZE_T <= a <
               8196 + aln_offset 8196 ALIGNOF_SIZE_T +
               (100 - aln_offset 8196 ALIGNOF_SIZE_T) / UNITSZ * UNITSZ) /\
    total_units s' l' =
    total_units two_free_blocks [4096; 4144] +
    (100 - aln_offset 8196 ALIGNOF_SIZE_T) / UNITSZ.
Proof.
  apply (add_keeps_well_formed two_free_blocks [4096; 4144] 8196 100 2%nat).
  - exact two_free_blocks_well_formed.
  - lia.
  - lia.
  - now vm_compute.
  - intros x [<- | [<- | []]]; left; now vm_compute.
  - discriminate.
  - cbn. lia.
Defined.

(** ** allocator_realloc: failure, and the free list after a move *)

(** X13: A [realloc] of a live block to a size that is not zero returns null
    only when nothing was done: the allocator and the block are as they
    were. *)
Theorem realloc_null_unchanged fuel s p n s' :
  p <> NULL -> 0 < n -> (forall x, reach s x -> 0 < x) ->
  allocator_realloc fuel s p n = Some (s', NULL) -> s' = s.
Proof.
  intros Hp Hn Hpos H. unfold allocator_realloc in H.
  rewrite (proj2 (Z.eqb_neq p NULL) Hp) in H.
  rewrite (proj2 (Z.eqb_neq n 0)) in H by lia.
  destruct (allocator_allocsz s p <? n).
  - destruct (allocator_alloc fuel s n) as [[s1 res] |] eqn:Ha;
      [| discriminate].
    destruct (Z.eqb_spec res NULL) as [-> | Hres]; cbn [negb] in H.
    + injection H as <-.
      apply allocator_alloc_inv in Ha; [| lia].
      destruct Ha as [(-> & _) | (_ & _ & Hc & prv & cur & Hw & Hex)];
        [reflexivity |].
      now destruct (alloc_exit_null _ _ _ _ _ _ Hex Hpos Hc Hw eq_refl).
    + destruct (allocator_free fuel _ p); [| discriminate].
      injection H as _ E. contradiction.
  - injection H as _ E. contradiction.
Qed.

Lemma realloc_null_unchanged_witness :
  fst (result_of (allocator_realloc 1 (fst first_alloc) (snd first_alloc)
                    (20 * UNITSZ))) = fst first_alloc.
Proof.
  apply (realloc_null_unchanged 1 (fst first_alloc) (snd first_alloc)
           (20 * UNITSZ)).
  - now vm_compute.
  - now vm_compute.
  - intros x Hx. apply reach_singleton in Hx; [| reflexivity].
    subst x. reflexivity.
  - reflexivity.
Defined.

Lemma well_formed_positive s l x : well_formed s l -> reach s x -> 0 < x.
Proof.
  intros Hwf Hx. pose proof Hwf as (Hring & Hsz & _).
  apply (ring_reach s l x Hring) in Hx. now destruct (Hsz x Hx).
Qed.

Lemma well_formed_closed s l :
  well_formed s l -> a_p s <> NULL -> ring_closed s (length l).
Proof.
  intros Hwf Hp. apply ring_closed_of_ring; [| now destruct Hwf].
  now apply (well_formed_nonempty s l).
Qed.

(** X14: A growing [realloc] of a live block, on a well-formed free list.  It
    returns.  When it returns null nothing has changed.  Otherwise the old
    block has gone back to the free list and the new one has come out of
    it: the list is a well-formed ring again, and its bytes are the bytes it
    had, less the new block, plus the old block.  Excluded is the case
    [allocator_free] does not handle, by asking that no free block starts
    where the old block ends unless the list has three nodes or more. *)
Theorem realloc_keeps_well_formed s l b n fuel :
  well_formed s l -> block_ok s b ->
  (forall x, In x l -> apart s b x) ->
  allocator_allocsz s (b + UNITSZ) < n ->
  ~ In (b + nunits s b * UNITSZ) l \/ (3 <= length l)%nat ->
  (length l <= fuel)%nat ->
  exists s' r,
    allocator_realloc fuel s (b + UNITSZ) n = Some (s', r) /\
    (r = NULL -> s' = s) /\
    (r <> NULL ->
     nunits s' (r - UNITSZ) = units_needed n /\
     exists l',
       well_formed s' l' /\
       (forall a, covered s' l' a <->
                  (covered s l a /\
                   ~ r - UNITSZ <= a < r - UNITSZ + units_needed n * UNITSZ) \/
                  b <= a < b + nunits s b * UNITSZ) /\
       total_units s' l' = total_units s l - units_needed n + nunits s b).
Proof.
  intros Hwf Hb Hap Hgrow Hdeg Hfuel.
  pose proof Hb as (Hb0 & Hba & Hb1 & Hb2).
  assert (0 < n) as Hn.
  { unfold allocator_allocsz in Hgrow.
    destruct (negb _); [| lia].
    pose proof (wrap_range (wrap (nunits s (b + UNITSZ - UNITSZ) - 1) * UNITSZ)).
    lia. }
  unfold allocator_realloc.
  rewrite (proj2 (Z.eqb_neq (b + UNITSZ) NULL))
    by (unfold NULL, UNITSZ; lia).
  rewrite (proj2 (Z.eqb_neq n 0)) by lia.
  rewrite (proj2 (Z.ltb_lt _ _) Hgrow).
  destruct (allocator_alloc_terminates s n (length l) fuel
              (well_formed_closed s l Hwf) Hfuel) as [[s1 r] Ha].
  rewrite Ha.
  destruct (Z.eqb_spec r NULL) as [-> | Hr]; cbn [negb].
  - (* no room: nothing is touched *)
    exists s1, NULL. split; [reflexivity |].
    split; [| intros H; now contradiction H].
    intros _. apply allocator_alloc_inv in Ha; [| lia].
    destruct Ha as [(-> & _) | (_ & _ & Hc & prv & cur & Hw & Hex)];
      [reflexivity |].
    now destruct (alloc_exit_null _ _ _ _ _ _ Hex
                    (fun x => well_formed_positive s l x Hwf) Hc Hw eq_refl).
  - (* the block moves *)
    destruct (alloc_well_formed_full fuel s l n s1 r ltac:(lia) Hwf Ha Hr)
      as (l1 & H1 & H2 & H3 & H4 & _ & H6 & H7 & H8 & H9 & H10).
    set (s2 := memcpy s1 r (b + UNITSZ) (allocator_allocsz s1 (b + UNITSZ))).
    assert (well_formed s2 l1) as Hwf2.
    { apply (well_formed_frame s1 s2); [reflexivity | | assumption].
      intros x Hx. split; reflexivity. }
    assert (nunits s2 b = nunits s b) as Hnb.
    { change (nunits s2 b) with (nunits s1 b). apply H10.
      intros x Hx. specialize (Hap x Hx). unfold apart, UNITSZ in *. lia. }
    destruct (free_well_formed_full s2 l1 b fuel Hwf2)
      as (s3 & l3 & Hf & Hwf3 & Hcov & Htot & Hrest).
    + unfold block_ok. rewrite Hnb. exact Hb.
    + intros x Hx. destruct (H9 x Hx) as [Hx0 Hx1].
      specialize (Hap x Hx0). unfold apart in *. rewrite Hnb.
      change (nunits s2 x) with (nunits s1 x). unfold UNITSZ in *. lia.
    + rewrite Hnb. intros E.
      destruct Hdeg as [Hdeg | Hdeg].
      * apply Hdeg. apply H9. rewrite E. now left.
      * rewrite E in H8. cbn [length] in H8. lia.
    + lia.
    + rewrite Hf. exists s3, r. split; [reflexivity |].
      split; [intros E; contradiction |]. intros _.
      assert (nunits s3 (r - UNITSZ) = units_needed n) as Hnew.
      { rewrite Hrest; [exact H3 | |].
        - intros E. 
          assert (covered s l (r - UNITSZ)) as (x & Hx & Hrange).
          { apply H6. right. pose proof (units_needed_pos n).
            unfold UNITSZ. lia. }
          specialize (Hap x Hx). unfold apart, UNITSZ in *. lia.
        - intros Hin. specialize (H4 _ Hin). unfold apart in H4.
          destruct H2 as (_ & _ & ? & _).
          destruct Hwf2 as (_ & Hsz2 & _).
          destruct (Hsz2 _ Hin) as (_ & _ & ? & _).
          change (nunits s2) with (nunits s1) in *.
          unfold UNITSZ in *. lia. }
      split; [assumption |].
      exists l3. split; [assumption |]. rewrite Hnb in Hcov, Htot.
      split.
      * intros a. rewrite Hcov.
        change (covered s2 l1 a) with (covered s1 l1 a).
        split; (intros [Hc | Hold]; [left | now right]).
        -- split; [apply H6; now left |].
           destruct Hc as (x & Hx & Hrange). specialize (H4 x Hx).
           unfold apart in H4. rewrite H3 in H4. unfold UNITSZ in *. lia.
        -- destruct Hc as [Hc Hnot]. apply H6 in Hc.
           destruct Hc as [Hc | Hc]; [assumption | contradiction].
      * rewrite Htot. change (total_units s2 l1) with (total_units s1 l1).
        lia.
Qed.

Lemma first_alloc_well_formed : well_formed (fst first_alloc) [4096].
Proof.
  split; [| split].
  - split; [now vm_compute |]. split.
    + repeat constructor. intros [].
    + repeat split.
  - intros x [<- | []]; unfold block_ok; now vm_compute.
  - intros x y [<- | []] [<- | []]; vm_compute; intuition discriminate.
Qed.

Lemma realloc_keeps_well_formed_witness :
  exists s' r,
    allocator_realloc 1 (fst first_alloc) (4224 + UNITSZ) 40 = Some (s', r) /\
    (r = NULL -> s' = fst first_alloc) /\
    (r <> NULL ->
     nunits s' (r - UNITSZ) = units_needed 40 /\
     exists l',
       well_formed s' l' /\
       (forall a, covered s' l' a <->
                  (covered (fst first_alloc) [4096] a /\
                   ~ r - UNITSZ <= a < r - UNITSZ + units_needed 40 * UNITSZ) \/
                  4224 <= a < 4224 + nunits (fst first_alloc) 4224 * UNITSZ) /\
       total_units s' l' =
       total_units (fst first_alloc) [4096] - units_needed 40 +
       nunits (fst first_alloc) 4224).
Proof.
  apply (realloc_keeps_well_formed (fst first_alloc) [4096] 4224 40 1%nat).
  - exact first_alloc_well_formed.
  - unfold block_ok. now vm_compute.
  - intros x [<- | []]. left. now vm_compute.
  - now vm_compute.
  - left. intros [E | []]. revert E. now vm_compute.
  - cbn. lia.
Defined.

(** ** The invariant of a run *)

Lemma free_walk_mono s p : forall f c cur,
  free_walk f s p c = Some cur ->
  forall f', (f <= f')%nat -> free_walk f' s p c = Some cur.
Proof.
  induction f as [| f IH]; intros c cur H f' Hf; [discriminate |].
  destruct f' as [| f']; [lia |].
  cbn [free_walk] in *.
  destruct ((c <? p) && (p <? nxt s c)); [assumption |].
  destruct ((nxt s c <=? c) && _); [assumption |].
  apply (IH _ _ H). lia.
Qed.

Lemma allocator_free_mono f s ptr s' :
  allocator_free f s ptr = Some s' ->
  forall f', (f <= f')%nat -> allocator_free f' s ptr = Some s'.
Proof.
  intros H f' Hf. unfold allocator_free in *.
  destruct (ptr =? NULL); [assumption |].
  destruct (negb (a_p s =? NULL)); [| assumption].
  destruct (free_walk f s (ptr - UNITSZ) (a_p s)) as [cur |] eqn:Hw;
    [| discriminate].
  now rewrite (free_walk_mono s _ f _ cur Hw f' Hf).
Qed.

Lemma covered_is_free s l a :
  well_formed s l -> (is_free s a <-> covered s l a).
Proof.
  intros (Hring & _). unfold is_free, covered, in_block.
  split; intros (x & Hx & Hr); exists x; (split; [| assumption]);
    now apply (ring_reach s l x Hring).
Qed.

Lemma apart_of_disjoint s b x :
  1 <= nunits s b -> 1 <= nunits s x ->
  (forall a, in_block s b a -> ~ in_block s x a) -> apart s b x.
Proof.
  intros Hb Hx H. unfold apart, in_block, UNITSZ in *.
  pose proof (H (Z.max b x)). lia.
Qed.

Lemma disjoint_of_apart s b x a :
  apart s b x -> in_block s b a -> ~ in_block s x a.
Proof. unfold apart, in_block. lia. Qed.

Lemma in_own_block s b : block_ok s b -> in_block s b b.
Proof. intros (_ & _ & ? & _). unfold in_block, UNITSZ. lia. Qed.

Lemma NoDup_remove_eq (x : Z) : forall l,
  NoDup l -> NoDup (remove Z.eq_dec x l).
Proof.
  induction l as [| a l IH]; intros H; [constructor |].
  apply NoDup_cons_iff in H. destruct H as [Ha Hl].
  cbn [remove]. destruct (Z.eq_dec x a); [now apply IH |].
  constructor; [| now apply IH].
  intros Hin. apply in_remove in Hin. now apply Ha.
Qed.

Lemma inv_not_null s l lv : inv s l lv -> ~ In NULL lv.
Proof.
  intros (_ & _ & Hlv & _) Hin. destruct (Hlv NULL Hin) as [(H & _) _].
  unfold NULL, UNITSZ in H. lia.
Qed.

Lemma inv_apart s l lv p :
  inv s l lv -> In p lv -> forall x, In x l -> apart s (p - UNITSZ) x.
Proof.
  intros ((_ & Hsz & _) & _ & Hlv & _) Hp x Hx.
  destruct (Hlv p Hp) as [Hb Hdis].
  apply apart_of_disjoint.
  - now destruct Hb as (_ & _ & ? & _).
  - now destruct (Hsz x Hx) as (_ & _ & ? & _).
  - intros a Ha Hxa. apply (Hdis a Ha). now exists x.
Qed.

(** Only the cursor and the header fields matter to the invariant. *)
Lemma inv_ext s s' l lv :
  a_p s' = a_p s -> nxt s' = nxt s -> nunits s' = nunits s ->
  inv s l lv -> inv s' l lv.
Proof.
  intros Hp Hn Hu (Hwf & Hnd & Hlv & Hpair).
  assert (forall b a, in_block s' b a <-> in_block s b a) as Hblk.
  { intros b a. unfold in_block. now rewrite Hu. }
  assert (forall a, covered s' l a <-> covered s l a) as Hcov.
  { intros a. unfold covered. now rewrite Hu. }
  split; [| split; [assumption | split]].
  - apply (well_formed_frame s s'); [assumption | | assumption].
    intros x _. now rewrite Hn, Hu.
  - intros p Hin. destruct (Hlv p Hin) as [Hb Hdis]. split.
    + unfold block_ok in *. now rewrite Hu.
    + intros a Ha. rewrite Hcov. apply Hdis. now apply Hblk.
  - intros p q Hip Hiq Hne a Ha. rewrite Hblk. 
    apply (Hpair p q Hip Hiq Hne). now apply Hblk.
Qed.

Lemma alloc_null_same fuel s n s' :
  0 <= n -> (forall x, reach s x -> 0 < x) ->
  allocator_alloc fuel s n = Some (s', NULL) -> s' = s.
Proof.
  intros Hn Hpos H. apply allocator_alloc_inv in H; [| assumption].
  destruct H as [(-> & _) | (_ & _ & Hp & prv & cur & Hw & Hex)];
    [reflexivity |].
  now destruct (alloc_exit_null _ _ _ _ _ _ Hex Hpos Hp Hw eq_refl).
Qed.

(** [allocator_alloc] keeps the invariant; the block it hands out joins
    the live blocks. *)
Lemma inv_alloc fuel s l lv n s' r :
  inv s l lv -> 0 <= n ->
  allocator_alloc fuel s n = Some (s', r) ->
  exists l', inv s' l' (if r =? NULL then lv else r :: lv).
Proof.
  intros Hinv Hn H. pose proof Hinv as (Hwf & Hnd & Hlv & Hpair).
  destruct (Z.eqb_spec r NULL) as [-> | Hr].
  - exists l. apply alloc_null_same in H; [now subst s' | assumption |].
    intros x. now apply (well_formed_positive s l).
  - destruct (alloc_well_formed_full fuel s l n s' r Hn Hwf H Hr)
      as (l' & H1 & H2 & H3 & H4 & _ & H6 & _ & _ & H9 & H10).
    exists l'.
    assert (forall p, In p lv -> nunits s' (p - UNITSZ) = nunits s (p - UNITSZ))
      as Hsame.
    { intros p Hp. apply H10. intros x Hx Hin.
      destruct (Hlv p Hp) as [Hb Hdis].
      apply (Hdis (p - UNITSZ)); [now apply in_own_block |].
      now exists x. }
    assert (forall p a, In p lv ->
              (in_block s' (p - UNITSZ) a <-> in_block s (p - UNITSZ) a))
      as Hblk.
    { intros p a Hp. unfold in_block. now rewrite (Hsame p Hp). }
    assert (forall a, in_block s' (r - UNITSZ) a -> covered s l a) as Hnew.
    { intros a Ha. apply H6. right. unfold in_block in Ha.
      now rewrite H3 in Ha. }
    assert (forall a, covered s' l' a -> covered s l a) as Hsub.
    { intros a Ha. apply H6. now left. }
    split; [assumption |]. split; [| split].
    + constructor; [| assumption]. intros Hin.
      destruct (Hlv r Hin) as [Hb Hdis].
      apply (Hdis (r - UNITSZ)); [now apply in_own_block |].
      apply Hnew. now apply in_own_block.
    + intros p [<- | Hp].
      * split; [assumption |]. intros a Ha (x & Hx & Hxa).
        exact (disjoint_of_apart s' _ x a (H4 x Hx) Ha Hxa).
      * destruct (Hlv p Hp) as [Hb Hdis]. split.
        -- unfold block_ok in *. now rewrite (Hsame p Hp).
        -- intros a Ha Hc. apply (Hdis a); [now apply Hblk | now apply Hsub].
    + intros p q [<- | Hp] [<- | Hq] Hne a Ha; try contradiction.
      * rewrite (Hblk q a Hq). intros Hqa.
        destruct (Hlv q Hq) as [_ Hdis]. exact (Hdis a Hqa (Hnew a Ha)).
      * intros Hra. apply (Hblk p a Hp) in Ha.
        destruct (Hlv p Hp) as [_ Hdis]. exact (Hdis a Ha (Hnew a Hra)).
      * rewrite (Hblk q a Hq). apply (Hpair p q Hp Hq Hne).
        now apply Hblk.
Qed.

(** [allocator_free] of a live block, away from the case it misses, keeps
    the invariant; the block leaves the live blocks. *)
Lemma inv_free fuel s l lv ptr s' :
  inv s l lv -> In ptr lv -> ~ missed_case s (ptr - UNITSZ) ->
  allocator_free fuel s ptr = Some s' ->
  exists l', inv s' l' (remove Z.eq_dec ptr lv).
Proof.
  intros Hinv Hptr Hmiss H. pose proof Hinv as (Hwf & Hnd & Hlv & Hpair).
  set (b := ptr - UNITSZ) in *.
  destruct (Hlv ptr Hptr) as [Hb Hdis]. fold b in Hb, Hdis.
  assert (l <> [b + nunits s b * UNITSZ]) as Hdeg.
  { intros E. apply Hmiss. destruct Hwf as (Hring & _).
    rewrite E in Hring. destruct Hring as (Hnn & _ & Hc & Hnx).
    cbn [path] in Hnx. unfold missed_case. auto. }
  destruct (free_well_formed_full s l b (Nat.max fuel (length l)) Hwf Hb)
    as (s'' & l' & Hf & Hwf' & Hcov & _ & Hrest);
    [exact (inv_apart s l lv ptr Hinv Hptr) | assumption | lia |].
  replace (b + UNITSZ) with ptr in Hf by (unfold b; lia).
  apply (allocator_free_mono fuel s ptr s') with (f' := Nat.max fuel (length l))
    in H; [| lia].
  assert (s'' = s') as -> by congruence.
  exists l'.
  assert (forall q, In q lv -> q <> ptr ->
            nunits s' (q - UNITSZ) = nunits s (q - UNITSZ)) as Hsame.
  { intros q Hq Hne. destruct (Hlv q Hq) as [Hqb Hqd]. apply Hrest.
    - unfold b. lia.
    - intros Hin. apply (Hqd (q - UNITSZ)); [now apply in_own_block |].
      exists (q - UNITSZ). split; [assumption | now apply in_own_block]. }
  split; [assumption |]. split; [now apply NoDup_remove_eq | split].
  - intros q Hq. apply in_remove in Hq. destruct Hq as [Hq Hne].
    destruct (Hlv q Hq) as [Hqb Hqd]. split.
    + unfold block_ok in *. now rewrite (Hsame q Hq Hne).
    + intros a Ha Hc. unfold in_block in Ha. rewrite (Hsame q Hq Hne) in Ha.
      apply Hcov in Hc. destruct Hc as [Hc | Hc]; [exact (Hqd a Ha Hc) |].
      exact (Hpair q ptr Hq Hptr Hne a Ha Hc).
  - intros p q Hp Hq Hne a. apply in_remove in Hp, Hq.
    destruct Hp as [Hp Hp'], Hq as [Hq Hq']. unfold in_block.
    rewrite (Hsame p Hp Hp'), (Hsame q Hq Hq').
    exact (Hpair p q Hp Hq Hne a).
Qed.

(** [allocator_add] of a fresh region keeps the invariant. *)
Lemma inv_add fuel s l lv p n s' :
  inv s l lv -> op_ok s lv (Add p n) ->
  allocator_add fuel s p n = Some s' ->
  exists l', inv s' l' lv.
Proof.
  intros Hinv (Hp0 & Hn0 & Hend & Hfresh & Hmiss) H.
  pose proof Hinv as (Hwf & Hnd & Hlv & Hpair).
  unfold allocator_add in H.
  destruct (aln_offset_spec p ALIGNOF_SIZE_T) as [Hi Hal];
    [unfold ALIGNOF_SIZE_T; lia |].
  set (inc := aln_offset p ALIGNOF_SIZE_T) in *.
  destruct (Z.ltb_spec (inc + UNITSZ) n) as [Hbig | Hsmall];
    [| injection H as <-; now exists l].
  specialize (Hmiss Hbig).
  rewrite (wrap_small (n - inc)) in H
    by (unfold ALIGNOF_SIZE_T, UNITSZ in *; lia).
  rewrite (wrap_small (p + inc)) in H
    by (unfold ALIGNOF_SIZE_T, UNITSZ in *; lia).
  set (cnt := (n - inc) / UNITSZ) in *.
  set (new := p + inc) in *.
  assert (1 <= cnt /\ cnt * UNITSZ <= n - inc) as [Hc1 Hc2].
  { unfold cnt, UNITSZ in *.
    pose proof (Z.div_mod (n - inc) 16 ltac:(lia)).
    pose proof (Z.mod_pos_bound (n - inc) 16 ltac:(lia)). lia. }
  rewrite (proj2 (Z.eqb_neq cnt 0)) in H by lia. cbn [andb negb] in H.
  set (s1 := set_nunits s new cnt) in *.
  assert (p <= new < p + n) as Hnew
    by (unfold new, ALIGNOF_SIZE_T, UNITSZ in *; lia).
  assert (forall x, In x l -> x <> new) as Hnl.
  { intros x Hx ->. destruct (Hfresh new Hnew) as [Hnf _]. apply Hnf.
    apply (covered_is_free s l new Hwf). exists new. split; [assumption |].
    apply in_own_block. now apply Hwf. }
  assert (forall q, In q lv -> q - UNITSZ <> new) as Hnq.
  { intros q Hq E. destruct (Hfresh new Hnew) as [_ Hnb].
    apply (Hnb q Hq). rewrite E. apply in_own_block. rewrite <- E.
    now apply Hlv. }
  assert (forall x, x <> new -> nunits s1 x = nunits s x) as Hsame.
  { intros x Hx. unfold s1. cbn [nunits set_nunits]. now apply upd_other. }
  assert (nunits s1 new = cnt) as Hcnt.
  { unfold s1. cbn [nunits set_nunits]. apply upd_same. }
  assert (forall a, in_block s1 new a -> p <= a < p + n) as Hreg.
  { intros a Ha. unfold in_block in Ha. rewrite Hcnt in Ha.
    unfold new, ALIGNOF_SIZE_T, UNITSZ in *. lia. }
  assert (forall a, covered s1 l a <-> covered s l a) as Hcov.
  { intros a. unfold covered.
    split; intros (x & Hx & Hr); exists x; (split; [assumption |]).
    - now rewrite <- (Hsame x (Hnl x Hx)).
    - now rewrite (Hsame x (Hnl x Hx)). }
  assert (forall q a, In q lv ->
            (in_block s1 (q - UNITSZ) a <-> in_block s (q - UNITSZ) a))
    as Hblk.
  { intros q a Hq. unfold in_block. now rewrite (Hsame _ (Hnq q Hq)). }
  assert (inv s1 l ((new + UNITSZ) :: lv)) as Hinv1.
  { replace new with (new + UNITSZ - UNITSZ) in Hreg, Hcnt by lia.
    split; [| split; [| split]].
    - apply (well_formed_frame s s1); [reflexivity | | assumption].
      intros x Hx. split; [reflexivity | now apply Hsame, Hnl].
    - constructor; [| assumption]. intros Hin.
      apply (Hnq _ Hin). lia.
    - intros q [<- | Hq].
      + split.
        * unfold block_ok. rewrite Hcnt.
          replace (new + UNITSZ - UNITSZ) with new by lia.
          repeat split; try assumption;
            unfold new, ALIGNOF_SIZE_T, UNITSZ in *; lia.
        * intros a Ha. rewrite Hcov, <- (covered_is_free s l a Hwf).
          now apply Hfresh, Hreg.
      + destruct (Hlv q Hq) as [Hqb Hqd]. split.
        * unfold block_ok in *. now rewrite (Hsame _ (Hnq q Hq)).
        * intros a Ha. rewrite Hcov. apply Hqd. now apply Hblk.
    - intros q q' [<- | Hq] [<- | Hq'] Hne a Ha; try contradiction.
      + rewrite (Hblk q' a Hq').
        destruct (Hfresh a (Hreg a Ha)) as [_ Hnb]. exact (Hnb q' Hq').
      + intros Hna. apply (Hblk q a Hq) in Ha.
        destruct (Hfresh a (Hreg a Hna)) as [_ Hnb]. exact (Hnb q Hq Ha).
      + rewrite (Hblk q' a Hq'). apply (Hpair q q' Hq Hq' Hne).
        now apply Hblk. }
  destruct (inv_free fuel s1 l _ (new + UNITSZ) s' Hinv1) as [l' Hinv'].
  - now left.
  - now replace (new + UNITSZ - UNITSZ) with new by lia.
  - assumption.
  - exists l'. cbn [remove] in Hinv'.
    destruct (Z.eq_dec (new + UNITSZ) (new + UNITSZ)); [| contradiction].
    rewrite notin_remove in Hinv'; [assumption |].
    intros Hin. apply (Hnq _ Hin). lia.
Qed.

Lemma inv_realloc fuel s l lv ptr n s' r :
  inv s l lv -> op_ok s lv (Realloc ptr n) ->
  allocator_realloc fuel s ptr n = Some (s', r) ->
  exists l', inv s' l' (live_after lv (Realloc ptr n) r).
Proof.
  intros Hinv [Hn Hptr] H. cbn [live_after].
  unfold allocator_realloc in H.
  destruct (Z.eqb_spec ptr NULL) as [Hnull | Hnull].
  { apply (inv_alloc fuel s l lv n s' r Hinv); [lia | assumption]. }
  destruct Hptr as [Hptr | (Hin & Hzero & Hgrow)]; [contradiction |].
  destruct (Z.eqb_spec n 0) as [Hn0 | Hn0].
  { destruct (allocator_free fuel s ptr) as [s1 |] eqn:Hf; [| discriminate].
    injection H as <- <-.
    exact (inv_free fuel s l lv ptr s1 Hinv Hin (Hzero Hn0) Hf). }
  destruct (Z.ltb_spec (allocator_allocsz s ptr) n) as [Hlt | Hge].
  2:{ injection H as <- <-. rewrite (Z.eqb_refl ptr), orb_true_r.
      now exists l. }
  destruct (allocator_alloc fuel s n) as [[s1 q] |] eqn:Ha; [| discriminate].
  destruct (inv_alloc fuel s l lv n s1 q Hinv ltac:(lia) Ha) as [l1 Hinv1].
  destruct (Z.eqb_spec q NULL) as [Hq | Hq]; cbn [negb] in H.
  { injection H as <- <-. rewrite Hq, (Z.eqb_refl NULL). cbn [orb].
    now exists l1. }
  set (s2 := memcpy s1 q ptr (allocator_allocsz s1 ptr)) in *.
  destruct (allocator_free fuel s2 ptr) as [s3 |] eqn:Hf; [| discriminate].
  injection H as <- <-.
  assert (inv s2 l1 (q :: lv)) as Hinv2
    by (apply (inv_ext s1 s2); [reflexivity .. | assumption]).
  assert (q <> ptr) as Hqp.
  { intros ->. destruct Hinv1 as (_ & Hnd1 & _).
    apply NoDup_cons_iff in Hnd1. now destruct Hnd1. }
  destruct (inv_free fuel s2 l1 (q :: lv) ptr s3 Hinv2) as [l3 Hinv3].
  - now right.
  - exact (Hgrow fuel s1 q Hlt Ha Hq).
  - assumption.
  - exists l3. rewrite (proj2 (Z.eqb_neq q NULL) Hq).
    rewrite (proj2 (Z.eqb_neq q ptr) Hqp). cbn [orb].
    cbn [remove] in Hinv3.
    destruct (Z.eq_dec ptr q); [congruence | assumption].
Qed.

(** The invariant holds along every run. *)
Lemma reachable_inv s lv : reachable_state s lv -> exists l, inv s l lv.
Proof.
  induction 1 as [nu nx by_ | s lv o fuel s' r Hs [l Hinv] Hok Hrun].
  - exists []. split; [| split; [constructor | split]].
    + split; [reflexivity |]. split; [intros x [] | intros x y []].
    + intros p [].
    + intros p q [].
  - destruct o as [p n | n | ptr | ptr n]; cbn [run live_after] in *.
    + destruct (allocator_add fuel s p n) as [s1 |] eqn:Ha; [| discriminate].
      injection Hrun as <- <-.
      exact (inv_add fuel s l lv p n s1 Hinv Hok Ha).
    + apply (inv_alloc fuel s l lv n s' r Hinv); [apply Hok | assumption].
    + destruct (allocator_free fuel s ptr) as [s1 |] eqn:Hf; [| discriminate].
      injection Hrun as <- <-.
      destruct Hok as [-> | [Hin Hmiss]].
      * unfold allocator_free in Hf. cbn in Hf. injection Hf as <-.
        exists l. rewrite notin_remove; [assumption |].
        exact (inv_not_null s l lv Hinv).
      * exact (inv_free fuel s l lv ptr s1 Hinv Hin Hmiss Hf).
    + exact (inv_realloc fuel s l lv ptr n s' r Hinv Hok Hrun).
Qed.

(** C2 (amended): after every completed operation (add, alloc, free,
    realloc) of a run that starts from [ALLOCATOR_INIT], in which [add] is
    given memory that overlaps no free and no live block, [free] and
    [realloc] are given null or a live pointer, and no call of
    [allocator_free] meets the one-node case it misses, every block of the
    free list has [nunits >= 1] and a header and a payload address aligned
    to [alignof(size_t)]; and [add] on an empty allocator places the header
    of an accepted region at the first [alignof(size_t)]-aligned address at
    or after the region base, for any base. *)
Theorem unit_discipline_holds :
  (forall s lv, reachable_state s lv ->
     forall x, reach s x ->
       1 <= nunits s x /\ x mod ALIGNOF_SIZE_T = 0 /\
       (x + UNITSZ) mod ALIGNOF_SIZE_T = 0) /\
  (forall nu nx by_ fuel base nbytes s',
     0 < base -> 0 <= nbytes -> base + nbytes <= 2 ^ 64 ->
     allocator_add fuel (ALLOCATOR_INIT nu nx by_) base nbytes = Some s' ->
     a_p s' <> NULL ->
     a_p s' = base + aln_offset base ALIGNOF_SIZE_T /\
     a_p s' mod ALIGNOF_SIZE_T = 0 /\
     base <= a_p s' < base + ALIGNOF_SIZE_T).
Proof.
  split.
  - intros s lv Hs x Hx.
    destruct (reachable_inv s lv Hs) as [l ((Hring & Hsz & _) & _)].
    apply (ring_reach s l x Hring) in Hx.
    destruct (Hsz x Hx) as (H0 & Ha & Hn & _).
    repeat split; try assumption.
    unfold UNITSZ, ALIGNOF_SIZE_T in *.
    replace (x + 16) with (x + 2 * 8) by lia. now rewrite Z.mod_add by lia.
  - intros nu nx by_ fuel base nbytes s' Hb Hn Hsz H Hp.
    unfold allocator_add in H.
    destruct (Z.ltb_spec (aln_offset base ALIGNOF_SIZE_T + UNITSZ) nbytes)
      as [Hbig | Hsmall]; [| injection H as <-; now cbn in Hp].
    destruct (negb _); cbn [andb] in H; [| injection H as <-; now cbn in Hp].
    destruct (add_header_place base nbytes Hb Hsz Hbig) as (Hnew & Ha & Hr & _).
    set (new := wrap (base + aln_offset base ALIGNOF_SIZE_T)) in *.
    unfold allocator_free in H.
    rewrite (proj2 (Z.eqb_neq (new + UNITSZ) NULL)) in H
      by (unfold NULL, UNITSZ; lia).
    cbn in H. injection H as <-. cbn [a_p set_nxt set_p].
    replace (new + UNITSZ - UNITSZ) with new by lia.
    rewrite <- Hnew. auto.
Qed.

Lemma init_not_free nu nx by_ a : ~ is_free (ALLOCATOR_INIT nu nx by_) a.
Proof. intros (x & Hx & _). apply reach_nonempty in Hx. now apply Hx. Qed.

(** A run of four calls: [add] of five units, two [alloc]s, and the
    [free] of the first block handed out; the second stays live. *)
Lemma two_free_blocks_reachable : reachable_state two_free_blocks [4128].
Proof.
  pose proof (rs_init zero_mem zero_mem zero_mem) as H0.
  assert (reachable_state (seeded 4096 5) []) as H1.
  { apply (rs_step _ [] (Add 4096 (5 * UNITSZ)) 1%nat (seeded 4096 5) NULL H0);
      [| reflexivity].
    split; [lia |]. split; [unfold UNITSZ; lia |].
    split; [unfold UNITSZ; lia |]. split.
    - intros a _. split; [apply init_not_free | intros q []].
    - intros inc new _ (Hp & _). now apply Hp. }
  assert (reachable_state
            (fst (result_of (allocator_alloc 1 (seeded 4096 5) UNITSZ)))
            [4160]) as H2.
  { apply (rs_step _ [] (Alloc UNITSZ) 1%nat _ 4160 H1); [| reflexivity].
    unfold op_ok, SIZE_MAX, UNITSZ. lia. }
  assert (reachable_state two_allocs [4128; 4160]) as H3.
  { apply (rs_step _ [4160] (Alloc UNITSZ) 1%nat _ 4128 H2); [| reflexivity].
    unfold op_ok, SIZE_MAX, UNITSZ. lia. }
  apply (rs_step _ [4128; 4160] (Free 4160) 1%nat two_free_blocks NULL H3);
    [| reflexivity].
  right. split; [right; now left |].
  intros (_ & _ & E). revert E. now vm_compute.
Qed.

Lemma unit_discipline_holds_witness :
  (1 <= nunits two_free_blocks 4144 /\ 4144 mod ALIGNOF_SIZE_T = 0 /\
   (4144 + UNITSZ) mod ALIGNOF_SIZE_T = 0) /\
  (a_p (seeded 4100 10) = 4100 + aln_offset 4100 ALIGNOF_SIZE_T /\
   a_p (seeded 4100 10) mod ALIGNOF_SIZE_T = 0 /\
   4100 <= a_p (seeded 4100 10) < 4100 + ALIGNOF_SIZE_T).
Proof.
  split.
  - apply (proj1 unit_discipline_holds two_free_blocks [4128]
             two_free_blocks_reachable).
    apply (ring_reach _ _ _ two_free_blocks_ring). right. now left.
  - apply (proj2 unit_discipline_holds zero_mem zero_mem zero_mem 1%nat
             4100 (10 * UNITSZ) (seeded 4100 10)).
    + lia.
    + unfold UNITSZ. lia.
    + unfold UNITSZ. lia.
    + reflexivity.
    + now vm_compute.
Defined.

(** ** Growing reallocation *)






